(** * The InnoDB cluster labeler of the MySQL operator

    A shallow embedding of
    [pkg/controllers/cluster/labeler/cluster_labeler.go] and the
    properties of its reconciliation pass ([syncHandler]), of the label
    mutation ([updateClusterRoleLabel]), of the worker step
    ([processNextWorkItem]) and of ingestion ([EnqueueClusterStatus]).

    Go values are modelled as follows.
    - [string] is [string]; [int] is [Z] (no arithmetic is done on it).
    - A Go map is a [gmap]; a map that may be [nil] is an [option (gmap _ _)],
      [None] being the nil map: reading and [delete] are allowed on it,
      assignment panics.
    - [error] is [option Error], [None] being [nil].
    - Pointers to structs are modelled by the structs themselves.
    - The pods, the snapshot store and the work queue form an explicit
      [World] that every call threads through; a panic stops the call and
      keeps the world reached so far.
    - The pod lister reads the pods as [PatchPod] last wrote them: within a
      pass a read sees the mutations made before it.
    - Log lines are left out, and the texts of wrapped errors are cut down to
      their fixed part. *)

From Stdlib Require Import List ZArith Bool Lia.
From stdpp Require Import base gmap strings list fin_maps pretty.

Import ListNotations.
Local Open Scope string_scope.
Local Open Scope list_scope.

(** ** Errors ([error], [fmt.Errorf], [errors.Wrap]) *)

Inductive Error : Type :=
| ErrNew (msg : string)
| ErrWrap (cause : Error) (msg : string).

Abbreviation error := (option Error).

(** [errors.Cause]: the innermost error of a chain of wraps. *)
Fixpoint Cause (e : Error) : Error :=
  match e with
  | ErrNew _ => e
  | ErrWrap c _ => Cause c
  end.

(** ** The Kubernetes objects the controller touches *)

Module corev1.

(** [corev1.Pod], reduced to its identity, its labels and the rest of the
    object; [Labels] is [None] for a pod whose label map is nil. *)
Record Pod : Type := {
  Name : string;
  Namespace : string;
  Labels : option (gmap string string);
  Annotations : gmap string string;
  ResourceVersion : string;
  Spec : string;
  Status : string
}.

(** [pod.DeepCopy()]: an equal value that shares nothing. *)
Definition DeepCopy (pod : Pod) : Pod := pod.

Definition withLabels (pod : Pod) (ls : option (gmap string string)) : Pod :=
  {| Name := Name pod; Namespace := Namespace pod; Labels := ls;
     Annotations := Annotations pod; ResourceVersion := ResourceVersion pod;
     Spec := Spec pod; Status := Status pod |}.

End corev1.

(** ** Label selectors ([k8s.io/apimachinery/pkg/labels]) *)

Module labels.

Inductive Requirement : Type :=
| Equals (key value : string)
| NotEquals (key value : string)
| Exists (key : string).

Definition Selector := list Requirement.

(** [labels.Set(pod.Labels)]: a nil map is an empty set of labels. *)
Definition Set_ (ls : option (gmap string string)) : gmap string string :=
  default ∅ ls.

Definition matchesRequirement (ls : gmap string string) (r : Requirement) : bool :=
  match r with
  | Equals k v => bool_decide (ls !! k = Some v)
  | NotEquals k v => negb (bool_decide (ls !! k = Some v))
  | Exists k => bool_decide (is_Some (ls !! k))
  end.

Definition Matches (sel : Selector) (ls : gmap string string) : bool :=
  forallb (matchesRequirement ls) sel.

End labels.

(** ** The InnoDB cluster status ([pkg/cluster/innodb]) *)

Module innodb.

(** [InstanceStatus] is a string type in the source. *)
Definition InstanceStatus := string.
Definition InstanceStatusOnline : InstanceStatus := "ONLINE".

Record Instance : Type := { Status : InstanceStatus }.

Record ReplicaSet : Type := { Topology : gmap string Instance }.

Record ClusterStatus : Type := {
  ClusterName : string;
  DefaultReplicaSet : ReplicaSet
}.

End innodb.

(** ** The local instance ([pkg/cluster]) *)

Module cluster.

(** Modelled from the spec: [cluster.Instance] is declared outside the
    labeler; the spec gives it a namespace, a cluster name, a resource name
    and a port. [Name] is the method the labeler calls for the resource
    name. *)
Record Instance : Type := {
  Namespace : string;
  ClusterName : string;
  ResourceName : string;
  Port : Z
}.

Definition Name (i : Instance) : string := ResourceName i.

End cluster.

(** ** Constants of the labeler *)

Definition LabelMySQLClusterRole : string := "v1.mysql.oracle.com/role".
Definition MySQLClusterRolePrimary : string := "primary".
Definition MySQLClusterRoleSecondary : string := "secondary".

(** Modelled from the spec: the label that ties a pod to its cluster is a
    constant of the operator declared outside the labeler; the spec speaks of
    the members "in cluster C". *)
Definition MySQLClusterLabel : string := "v1.mysql.oracle.com/cluster".

(** Modelled from the spec: the four selectors of the labeler package are
    declared outside [cluster_labeler.go]. The spec (4.3, 4.5) has them select
    the members of cluster C that are labeled primary, that are not labeled
    primary, that carry any role label, and that are labeled secondary. *)
Definition PrimarySelector (clusterName : string) : labels.Selector :=
  [labels.Equals MySQLClusterLabel clusterName;
   labels.Equals LabelMySQLClusterRole MySQLClusterRolePrimary].

Definition SecondarySelector (clusterName : string) : labels.Selector :=
  [labels.Equals MySQLClusterLabel clusterName;
   labels.Equals LabelMySQLClusterRole MySQLClusterRoleSecondary].

Definition NonPrimarySelector (clusterName : string) : labels.Selector :=
  [labels.Equals MySQLClusterLabel clusterName;
   labels.NotEquals LabelMySQLClusterRole MySQLClusterRolePrimary].

Definition HasRoleSelector (clusterName : string) : labels.Selector :=
  [labels.Equals MySQLClusterLabel clusterName;
   labels.Exists LabelMySQLClusterRole].

(** ** The world: pods, snapshot store, work queue *)

(** What [cache.Store] and the queue hold is an [interface{}]: either a
    cluster status or a value of some other type, named by its type. *)
Inductive Obj : Type :=
| ObjClusterStatus (status : innodb.ClusterStatus)
| ObjOther (typeName : string).

(** One call of [PatchPod], with the error it returned. *)
Record PatchCall : Type := {
  patchOld : corev1.Pod;
  patchNew : corev1.Pod;
  patchResult : error
}.

(** The calls made on the snapshot store and on the work queue, in program
    order. *)
Inductive Event : Type :=
| EvStoreAdd (key : string)
| EvQueueAdd (key : string)
| EvQueueGet
| EvQueueDone (key : string)
| EvQueueForget (key : string)
| EvQueueAddRateLimited (key : string).

Record World : Type := {
  pods : list corev1.Pod;       (* the pods the lister reads and PatchPod writes *)
  patchLog : list PatchCall;    (* every PatchPod call, oldest first *)
  store : gmap string Obj;      (* cache.Store, keyed by keyFunc *)
  queue : list string;          (* keys waiting in the work queue *)
  shuttingDown : bool;          (* the queue was shut down *)
  trace : list Event            (* store and queue calls, oldest first *)
}.

Definition withPods (w : World) (ps : list corev1.Pod) (c : PatchCall) : World :=
  {| pods := ps; patchLog := patchLog w ++ [c]; store := store w;
     queue := queue w; shuttingDown := shuttingDown w; trace := trace w |}.

Definition withStore (w : World) (s : gmap string Obj) (e : Event) : World :=
  {| pods := pods w; patchLog := patchLog w; store := s;
     queue := queue w; shuttingDown := shuttingDown w; trace := trace w ++ [e] |}.

Definition withQueue (w : World) (q : list string) (e : Event) : World :=
  {| pods := pods w; patchLog := patchLog w; store := store w;
     queue := q; shuttingDown := shuttingDown w; trace := trace w ++ [e] |}.

(** ** A state monad with panics *)

Inductive Outcome (A : Type) : Type :=
| Done (a : A)
| Panic (msg : string).
Arguments Done {A} a.
Arguments Panic {A} msg.

Definition M (A : Type) : Type := World -> Outcome A * World.

Definition ret {A} (a : A) : M A := fun w => (Done a, w).

Definition bind {A B} (m : M A) (k : A -> M B) : M B :=
  fun w =>
    match m w with
    | (Done a, w') => k a w'
    | (Panic msg, w') => (Panic msg, w')
    end.

Definition panic {A} (msg : string) : M A := fun w => (Panic msg, w).

(** [defer d] around [body]: [d] runs when [body] returns and also when it
    panics. *)
Definition deferring {A} (d : M unit) (body : M A) : M A :=
  fun w =>
    match body w with
    | (Done a, w') =>
        match d w' with
        | (Done _, w'') => (Done a, w'')
        | (Panic msg, w'') => (Panic msg, w'')
        end
    | (Panic msg, w') => (Panic msg, snd (d w'))
    end.

Declare Scope go_scope.
Delimit Scope go_scope with go.
Notation "'let*' x ':=' m 'in' k" := (bind m (fun x => k))
  (at level 10, x name, m at level 100, k at level 200) : go_scope.
Notation "'let*' '(' x ',' y ')' ':=' m 'in' k" := (bind m (fun '(x, y) => k))
  (at level 10, x name, y name, m at level 100, k at level 200) : go_scope.
Local Open Scope go_scope.

(** ** Pods by namespace and name *)

Definition podKey (p : corev1.Pod) : string * string :=
  (corev1.Namespace p, corev1.Name p).

Definition hasKey (k : string * string) (p : corev1.Pod) : bool :=
  bool_decide (podKey p = k).

Definition lookupPod (k : string * string) (ps : list corev1.Pod) : option corev1.Pod :=
  List.find (hasKey k) ps.

Definition replacePod (k : string * string) (new : corev1.Pod) (ps : list corev1.Pod)
  : list corev1.Pod :=
  List.map (fun p => if hasKey k p then new else p) ps.

(** ** The collaborators of the controller *)

(** The pod lister: reads the pods of the world; [listFault] and [getFault]
    say when a read fails for a reason of its own. *)
Record PodLister : Type := {
  listFault : string -> labels.Selector -> error;
  getFault : string -> string -> error
}.

(** Modelled from the spec: [PodControlInterface] is declared outside the
    labeler. Its [PatchPod] is the spec's Label Mutator (4.4): it applies the
    change from [old] to [new] to the pod named by [old], and may fail;
    [patchFault] says when, given the calls made so far. As [old] is the pod
    as the lister handed it out, the pod after the change is [new]. *)
Record PodControlInterface : Type := {
  patchFault : list PatchCall -> corev1.Pod -> corev1.Pod -> error
}.

(** [cache.Store]: [getByKeyFault] and [addFault] say when the store itself
    fails. *)
Record StoreFaults : Type := {
  getByKeyFault : string -> error;
  addFault : Obj -> error
}.

(** The controller: the local instance and the behaviour of its
    collaborators. What the source keeps behind [queue] and [store], and the
    pods behind [podLister] and [podControl], is the [World]. *)
Record ClusterLabelerController : Type := {
  localInstance : cluster.Instance;
  podLister : PodLister;
  podControl : PodControlInterface;
  storeFaults : StoreFaults
}.

Definition keyFunc (obj : Obj) : string * error :=
  match obj with
  | ObjClusterStatus status => (innodb.ClusterName status, None)
  | ObjOther t => ("", Some (ErrNew ("expected *innodb.ClusterStatus got " +:+ t)))
  end.

(** [fmt.Sprintf("%s:%d", name, port)] *)
Definition Sprintf_s_d (name : string) (port : Z) : string :=
  name +:+ ":" +:+ pretty port.

(** [inCluster] returns true if an instance with the given address is a
    functioning member of the InnoDB cluster. *)
Definition inCluster (status : innodb.ClusterStatus) (address : string) : bool :=
  match innodb.Topology (innodb.DefaultReplicaSet status) !! address with
  | Some inst => bool_decide (innodb.Status inst = innodb.InstanceStatusOnline)
  | None => false
  end.

Section Controller.

Variable clc : ClusterLabelerController.

(** *** podLister.Pods(namespace).List and .Get *)

Definition selected (namespace : string) (sel : labels.Selector) (p : corev1.Pod) : bool :=
  bool_decide (corev1.Namespace p = namespace)
  && labels.Matches sel (labels.Set_ (corev1.Labels p)).

Definition listPods (namespace : string) (sel : labels.Selector)
  : M (list corev1.Pod * error) :=
  fun w =>
    match listFault (podLister clc) namespace sel with
    | Some e => (Done ([], Some e), w)
    | None => (Done (List.filter (selected namespace sel) (pods w), None), w)
    end.

Definition getPod (namespace name : string) : M (option corev1.Pod * error) :=
  fun w =>
    match getFault (podLister clc) namespace name with
    | Some e => (Done (None, Some e), w)
    | None =>
        match lookupPod (namespace, name) (pods w) with
        | Some p => (Done (Some p, None), w)
        | None => (Done (None, Some (ErrNew ("pod " +:+ name +:+ " not found"))), w)
        end
    end.

(** *** podControl.PatchPod *)

Definition PatchPod (old new : corev1.Pod) : M error :=
  fun w =>
    let res :=
      match patchFault (podControl clc) (patchLog w) old new with
      | Some e => Some e
      | None =>
          match lookupPod (podKey old) (pods w) with
          | Some _ => None
          | None => Some (ErrNew ("pod " +:+ corev1.Name old +:+ " not found"))
          end
      end in
    let call := {| patchOld := old; patchNew := new; patchResult := res |} in
    match res with
    | Some e => (Done (Some e), withPods w (pods w) call)
    | None => (Done None, withPods w (replacePod (podKey old) new (pods w)) call)
    end.

(** *** store.GetByKey, store.Add, and the queue *)

Definition GetByKey (key : string) : M (option Obj * error) :=
  fun w =>
    match getByKeyFault (storeFaults clc) key with
    | Some e => (Done (None, Some e), w)
    | None => (Done (store w !! key, None), w)
    end.

Definition storeAdd (obj : Obj) : M error :=
  fun w =>
    match keyFunc obj with
    | (_, Some e) => (Done (Some e), w)
    | (key, None) =>
        match addFault (storeFaults clc) obj with
        | Some e => (Done (Some e), w)
        | None => (Done None, withStore w (<[key := obj]> (store w)) (EvStoreAdd key))
        end
    end.

(** Modelled from the spec: the work queue is a library; the spec (4.2)
    has [Add] coalesce a key that is already waiting, [Get] hand out the
    oldest key or report shutdown, and [Forget], [Done] and
    [AddRateLimited] act on retry and in-flight state, which is recorded
    in the trace. [Get] on an empty queue that is not shut down blocks:
    it returns [None]. *)
Definition queueAdd (key : string) : M unit :=
  fun w =>
    (Done tt,
     withQueue w (if bool_decide (key ∈ queue w) then queue w else queue w ++ [key])
               (EvQueueAdd key)).

Definition queueGet : M (option (string * bool)) :=
  fun w =>
    match queue w with
    | key :: rest => (Done (Some (key, false)), withQueue w rest EvQueueGet)
    | [] => if shuttingDown w then (Done (Some ("", true)), w) else (Done None, w)
    end.

Definition queueDone (key : string) : M unit :=
  fun w => (Done tt, withQueue w (queue w) (EvQueueDone key)).

Definition queueForget (key : string) : M unit :=
  fun w => (Done tt, withQueue w (queue w) (EvQueueForget key)).

Definition queueAddRateLimited (key : string) : M unit :=
  fun w => (Done tt, withQueue w (queue w) (EvQueueAddRateLimited key)).

(** *** updateClusterRoleLabel *)

Definition updateClusterRoleLabel (pod : corev1.Pod) (val : string) : M error :=
  let new := corev1.DeepCopy pod in
  if bool_decide (val = "") then
    (* delete(new.Labels, LabelMySQLClusterRole): a no-op on a nil map *)
    PatchPod pod
      (corev1.withLabels new (delete LabelMySQLClusterRole <$> corev1.Labels new))
  else
    (* new.Labels[LabelMySQLClusterRole] = val: panics on a nil map *)
    match corev1.Labels new with
    | None => panic "assignment to entry in nil map"
    | Some ls =>
        PatchPod pod (corev1.withLabels new (Some (<[LabelMySQLClusterRole := val]> ls)))
    end.

(** *** syncHandler *)

Definition podAddress (pod : corev1.Pod) : string :=
  Sprintf_s_d (corev1.Name pod) (cluster.Port (localInstance clc)).

(** The first loop: remove the primary label from any pod that is not the
    local primary. Returns [primaryLabeled] and the error, if any, that
    ends the pass. *)
Fixpoint relabelPrimaries (status : innodb.ClusterStatus)
    (primaries : list corev1.Pod) (primaryLabeled : bool) : M (bool * error) :=
  match primaries with
  | [] => ret (primaryLabeled, None)
  | pod :: rest =>
      if bool_decide (corev1.Name pod = cluster.Name (localInstance clc)) then
        relabelPrimaries status rest true
      else
        let role :=
          if negb (inCluster status (podAddress pod)) then ""
          else MySQLClusterRoleSecondary in
        let* err := updateClusterRoleLabel pod role in
        match err with
        | Some e => ret (primaryLabeled, Some (ErrWrap e "relabeling primary"))
        | None => relabelPrimaries status rest primaryLabeled
        end
  end.

(** The second loop: ensure the non-primary pods are labeled as secondary
    or not at all. *)
Fixpoint relabelNonPrimaries (status : innodb.ClusterStatus)
    (clusterName : string) (nonPrimaries : list corev1.Pod) : M error :=
  match nonPrimaries with
  | [] => ret None
  | pod :: rest =>
      if negb (inCluster status (podAddress pod)) then
        if labels.Matches (HasRoleSelector clusterName) (labels.Set_ (corev1.Labels pod)) then
          let* err := updateClusterRoleLabel pod "" in
          match err with
          | Some e => ret (Some (ErrWrap e "removing role label"))
          | None => relabelNonPrimaries status clusterName rest
          end
        else relabelNonPrimaries status clusterName rest
      else if negb (bool_decide (corev1.Name pod = cluster.Name (localInstance clc)))
              && negb (labels.Matches (SecondarySelector clusterName)
                                      (labels.Set_ (corev1.Labels pod))) then
        let* err := updateClusterRoleLabel pod MySQLClusterRoleSecondary in
        match err with
        | Some e => ret (Some (ErrWrap e "labeling as secondary"))
        | None => relabelNonPrimaries status clusterName rest
        end
      else relabelNonPrimaries status clusterName rest
  end.

(** Between the loops: if the local primary is not yet labeled primary,
    label it. *)
Definition labelLocalPrimary (primaryLabeled : bool) : M error :=
  if negb primaryLabeled then
    let* (primary, err) := getPod (cluster.Namespace (localInstance clc))
                                  (cluster.Name (localInstance clc)) in
    match primary, err with
    | _, Some e => ret (Some (ErrWrap e "failed to get primary Pod"))
    | None, None => panic "nil pointer dereference"
    | Some primary, None =>
        let* err := updateClusterRoleLabel primary MySQLClusterRolePrimary in
        match err with
        | Some e => ret (Some (ErrWrap e "labeling as primary"))
        | None => ret None
        end
    end
  else ret None.

(** The pass once the snapshot is at hand. *)
Definition syncStatus (status : innodb.ClusterStatus) : M error :=
  let namespace := cluster.Namespace (localInstance clc) in
  let clusterName := cluster.ClusterName (localInstance clc) in
  let* (primaries, err) := listPods namespace (PrimarySelector clusterName) in
  match err with
  | Some e => ret (Some (ErrWrap e "failed to list primaries"))
  | None =>
      let* (primaryLabeled, err) := relabelPrimaries status primaries false in
      match err with
      | Some e => ret (Some e)
      | None =>
          let* err := labelLocalPrimary primaryLabeled in
          match err with
          | Some e => ret (Some e)
          | None =>
              let* (nonPrimaries, err) := listPods namespace (NonPrimarySelector clusterName) in
              match err with
              | Some e => ret (Some (ErrWrap e "failed to list non-primary Cluster pods"))
              | None => relabelNonPrimaries status clusterName nonPrimaries
              end
          end
      end
  end.

(** [syncHandler] labels the pods of a cluster as primary or secondary
    from the stored [innodb.ClusterStatus]. *)
Definition syncHandler (key : string) : M error :=
  let* (obj, err) := GetByKey key in
  match err with
  | Some e => ret (Some (ErrWrap e "getting key out of store"))
  | None =>
      match obj with
      | None => ret None   (* HandleError only logs; the pass succeeds *)
      | Some (ObjClusterStatus status) => syncStatus status
      | Some (ObjOther _) => panic "interface conversion"
      end
  end.

(** *** processNextWorkItem *)

(** [None] when [queue.Get] blocks; otherwise the boolean the source
    returns. *)
Definition processNextWorkItem : M (option bool) :=
  let* got := queueGet in
  match got with
  | None => ret None
  | Some (_, true) => ret (Some false)
  | Some (key, false) =>
      let* err :=
        deferring (queueDone key)
          (let* err := syncHandler key in
           match err with
           | Some e => ret (Some (ErrWrap e "error syncing"))
           | None => let* _ := queueForget key in ret None
           end) in
      match err with
      | Some _ =>
          (* HandleError logs the error *)
          let* _ := queueAddRateLimited key in ret (Some true)
      | None => ret (Some true)
      end
  end.

(** *** EnqueueClusterStatus *)

Definition EnqueueClusterStatus (obj : Obj) : M error :=
  match keyFunc obj with
  | (_, Some e) => ret (Some e)
  | (key, None) =>
      let* err := storeAdd obj in
      match err with
      | Some e => ret (Some (ErrWrap e "adding cluster status to store"))
      | None => let* _ := queueAdd key in ret None
      end
  end.

End Controller.

(** ** Vocabulary of the properties *)

(** The pod [updateClusterRoleLabel] submits for [pod] and [val], when it
    submits one. *)
Definition relabeled (pod : corev1.Pod) (val : string) : corev1.Pod :=
  corev1.withLabels pod
    (if bool_decide (val = "") then delete LabelMySQLClusterRole <$> corev1.Labels pod
     else insert LabelMySQLClusterRole val <$> corev1.Labels pod).

(** Two pods that differ at most in the value of the role label. *)
Definition SameButRole (old new : corev1.Pod) : Prop :=
  corev1.Name new = corev1.Name old
  /\ corev1.Namespace new = corev1.Namespace old
  /\ corev1.Annotations new = corev1.Annotations old
  /\ corev1.ResourceVersion new = corev1.ResourceVersion old
  /\ corev1.Spec new = corev1.Spec old
  /\ corev1.Status new = corev1.Status old
  /\ (corev1.Labels new = None <-> corev1.Labels old = None)
  /\ forall k, k <> LabelMySQLClusterRole ->
       labels.Set_ (corev1.Labels new) !! k = labels.Set_ (corev1.Labels old) !! k.

(** The role label of a pod, if it has one. *)
Definition roleOf (p : corev1.Pod) : option string :=
  labels.Set_ (corev1.Labels p) !! LabelMySQLClusterRole.

(** The cluster label of a pod, if it has one. *)
Definition clusterOf (p : corev1.Pod) : option string :=
  labels.Set_ (corev1.Labels p) !! MySQLClusterLabel.

(** The members of the local instance's cluster: the pods of its namespace
    that carry its cluster label. *)
Definition isMember (clc : ClusterLabelerController) (p : corev1.Pod) : bool :=
  bool_decide (corev1.Namespace p = cluster.Namespace (localInstance clc))
  && bool_decide (clusterOf p = Some (cluster.ClusterName (localInstance clc))).

Definition isLocal (clc : ClusterLabelerController) (p : corev1.Pod) : bool :=
  bool_decide (corev1.Name p = cluster.Name (localInstance clc)).

Definition succeeded (c : PatchCall) : bool :=
  match patchResult c with None => true | Some _ => false end.

(** What a call of [PatchPod] did to the pods. *)
Definition applyCall (ps : list corev1.Pod) (c : PatchCall) : list corev1.Pod :=
  if succeeded c then replacePod (podKey (patchOld c)) (patchNew c) ps else ps.

Definition replay (calls : list PatchCall) (ps : list corev1.Pod) : list corev1.Pod :=
  fold_left applyCall calls ps.

(** [w'] is [w] after the [PatchPod] calls [calls] and nothing else. *)
Definition Patched (w : World) (calls : list PatchCall) (w' : World) : Prop :=
  patchLog w' = patchLog w ++ calls
  /\ pods w' = replay calls (pods w)
  /\ store w' = store w
  /\ queue w' = queue w
  /\ shuttingDown w' = shuttingDown w
  /\ trace w' = trace w.

(** The pods of a world are told apart by namespace and name. *)
Definition WellKeyed (w : World) : Prop := List.NoDup (List.map podKey (pods w)).

(** *** The plan of a pass

    What a pass will patch is decided by the pods it lists: a plan is the
    list of the pods to relabel, each with its new role value, in the order
    of the calls. *)

Definition Plan := list (corev1.Pod * string).

Definition planFor (decide : corev1.Pod -> option string) (l : list corev1.Pod) : Plan :=
  flat_map (fun p => match decide p with Some v => [(p, v)] | None => [] end) l.

(** The first loop relabels every listed pod but the local one. *)
Definition decidePrimary (clc : ClusterLabelerController) (status : innodb.ClusterStatus)
    (p : corev1.Pod) : option string :=
  if isLocal clc p then None
  else Some (if negb (inCluster status (podAddress clc p)) then ""
             else MySQLClusterRoleSecondary).

(** The second loop clears the role of a pod that is not in the cluster and
    has one, and labels as secondary a pod that is in the cluster, is not
    the local one and is not yet labeled secondary. *)
Definition decideNonPrimary (clc : ClusterLabelerController) (status : innodb.ClusterStatus)
    (p : corev1.Pod) : option string :=
  let clusterName := cluster.ClusterName (localInstance clc) in
  if negb (inCluster status (podAddress clc p)) then
    if labels.Matches (HasRoleSelector clusterName) (labels.Set_ (corev1.Labels p))
    then Some "" else None
  else if negb (isLocal clc p)
          && negb (labels.Matches (SecondarySelector clusterName)
                                  (labels.Set_ (corev1.Labels p)))
  then Some MySQLClusterRoleSecondary else None.

Definition relabelBy (decide : corev1.Pod -> option string) (p : corev1.Pod) : corev1.Pod :=
  match decide p with Some v => relabeled p v | None => p end.

Definition applyPlan (plan : Plan) (ps : list corev1.Pod) : list corev1.Pod :=
  fold_left (fun acc pv => replacePod (podKey pv.1) (relabeled pv.1 pv.2) acc) plan ps.

Definition localKey (clc : ClusterLabelerController) : string * string :=
  (cluster.Namespace (localInstance clc), cluster.Name (localInstance clc)).

Definition primariesOf (clc : ClusterLabelerController) (ps : list corev1.Pod) :=
  List.filter (selected (cluster.Namespace (localInstance clc))
                 (PrimarySelector (cluster.ClusterName (localInstance clc)))) ps.

Definition nonPrimariesOf (clc : ClusterLabelerController) (ps : list corev1.Pod) :=
  List.filter (selected (cluster.Namespace (localInstance clc))
                 (NonPrimarySelector (cluster.ClusterName (localInstance clc)))) ps.

Definition planPrimaries clc status (ps : list corev1.Pod) : Plan :=
  planFor (decidePrimary clc status) (primariesOf clc ps).

Definition planLocal clc (primaryLabeled : bool) (ps : list corev1.Pod) : Plan :=
  if primaryLabeled then []
  else match lookupPod (localKey clc) ps with
       | Some p => [(p, MySQLClusterRolePrimary)]
       | None => []
       end.

Definition planNonPrimaries clc status (ps : list corev1.Pod) : Plan :=
  planFor (decideNonPrimary clc status) (nonPrimariesOf clc ps).

(** The plan of a whole pass over the pods [ps]: the three steps, each planned
    on the pods the steps before it leave. *)
Definition passPlan clc status (ps : list corev1.Pod) : Plan :=
  let plan1 := planPrimaries clc status ps in
  let ps1 := applyPlan plan1 ps in
  let plan2 := planLocal clc (existsb (isLocal clc) (primariesOf clc ps)) ps1 in
  let ps2 := applyPlan plan2 ps1 in
  plan1 ++ plan2 ++ planNonPrimaries clc status ps2.

(** What the three steps of a pass make of one pod, when every call
    succeeds; [primaryLabeled] is what the first loop found. *)
Definition afterPrimaries clc status (p : corev1.Pod) : corev1.Pod :=
  if selected (cluster.Namespace (localInstance clc))
       (PrimarySelector (cluster.ClusterName (localInstance clc))) p
  then relabelBy (decidePrimary clc status) p else p.

Definition afterLocal clc (primaryLabeled : bool) (p : corev1.Pod) : corev1.Pod :=
  if negb primaryLabeled && hasKey (localKey clc) p
  then relabeled p MySQLClusterRolePrimary else p.

Definition afterNonPrimaries clc status (p : corev1.Pod) : corev1.Pod :=
  if selected (cluster.Namespace (localInstance clc))
       (NonPrimarySelector (cluster.ClusterName (localInstance clc))) p
  then relabelBy (decideNonPrimary clc status) p else p.

Definition afterPass clc status (primaryLabeled : bool) (p : corev1.Pod) : corev1.Pod :=
  afterNonPrimaries clc status (afterLocal clc primaryLabeled (afterPrimaries clc status p)).

(** The role a member should bear according to the code: primary for the
    local instance, secondary for another member whose address is ONLINE in
    the topology, none otherwise. *)
Definition expectedRole clc status (p : corev1.Pod) : option string :=
  if isLocal clc p then Some MySQLClusterRolePrimary
  else if inCluster status (podAddress clc p) then Some MySQLClusterRoleSecondary
  else None.

(** The pods are labeled as a pass leaves them: the local instance's pod is
    there and is a member, and every member bears its expected role. *)
Definition Converged clc status (ps : list corev1.Pod) : Prop :=
  (exists p, In p ps /\ isLocal clc p = true /\ isMember clc p = true)
  /\ forall p, In p ps -> isMember clc p = true -> roleOf p = expectedRole clc status p.

(** The member pods labeled primary. *)
Definition isPrimaryMember clc (p : corev1.Pod) : bool :=
  isMember clc p && bool_decide (roleOf p = Some MySQLClusterRolePrimary).

(** The local instance's pod, when it is there, is a member of the cluster. *)
Definition LocalIsMember clc (ps : list corev1.Pod) : Prop :=
  forall p, In p ps -> podKey p = localKey clc -> isMember clc p = true.

Definition callOf (pv : corev1.Pod * string) (r : error) : PatchCall :=
  {| patchOld := pv.1; patchNew := relabeled pv.1 pv.2; patchResult := r |}.

(** How a pass can end: all its plan carried out, a [PatchPod] that failed,
    or anything else that stops it (a failed read, a panic). *)
Inductive Ending : Type :=
| Completed
| Failed (e : Error)
| Aborted.

(** The calls a run of a plan can make: the plan in order, every call
    succeeding, up to the point where the run ends. *)
Inductive PlanRun : Plan -> list PatchCall -> Ending -> Prop :=
| run_completed : PlanRun [] [] Completed
| run_aborted plan : PlanRun plan [] Aborted
| run_failed p v plan e :
    PlanRun ((p, v) :: plan) [callOf (p, v) (Some e)] (Failed e)
| run_patched p v plan calls ending :
    v = "" \/ corev1.Labels p <> None ->
    PlanRun plan calls ending ->
    PlanRun ((p, v) :: plan) (callOf (p, v) None :: calls) ending.

(** The outcome of a pass that ends in a given way. *)
Definition endsWith (ending : Ending) (out : Outcome error) : Prop :=
  match ending with
  | Completed => out = Done None
  | Failed e => exists msg, out = Done (Some (ErrWrap e msg))
  | Aborted => out <> Done None
  end.


(** ** Scenarios

    A cluster "mysql" in the namespace "default" whose local instance is
    "mysql-0" on port 3306, and worlds to run the controller on. *)

Module Scenario.

Definition local : cluster.Instance :=
  {| cluster.Namespace := "default"; cluster.ClusterName := "mysql";
     cluster.ResourceName := "mysql-0"; cluster.Port := 3306 |}.

Definition noListerFault : PodLister :=
  {| listFault := fun _ _ => None; getFault := fun _ _ => None |}.

Definition noStoreFault : StoreFaults :=
  {| getByKeyFault := fun _ => None; addFault := fun _ => None |}.

(** A controller whose collaborators never fail. *)
Definition clc : ClusterLabelerController :=
  {| localInstance := local; podLister := noListerFault;
     podControl := {| patchFault := fun _ _ _ => None |};
     storeFaults := noStoreFault |}.

(** A controller whose second [PatchPod] call fails. *)
Definition conflict : Error := ErrNew "the object has been modified".

Definition clcSecondPatchFails : ClusterLabelerController :=
  {| localInstance := local; podLister := noListerFault;
     podControl :=
       {| patchFault := fun log _ _ =>
                          if Nat.eqb (length log) 1 then Some conflict else None |};
     storeFaults := noStoreFault |}.

Definition pod (name : string) (ls : option (list (string * string))) : corev1.Pod :=
  {| corev1.Name := name; corev1.Namespace := "default";
     corev1.Labels := list_to_map <$> ls;
     corev1.Annotations := ∅; corev1.ResourceVersion := "1";
     corev1.Spec := ""; corev1.Status := "Running" |}.

Definition online : innodb.Instance := {| innodb.Status := "ONLINE" |}.

Definition snapshot (topology : list (string * innodb.Instance)) : innodb.ClusterStatus :=
  {| innodb.ClusterName := "mysql";
     innodb.DefaultReplicaSet := {| innodb.Topology := list_to_map topology |} |}.

(** mysql-0 and mysql-1 are ONLINE, mysql-2 has left the topology. *)
Definition status : innodb.ClusterStatus :=
  snapshot [("mysql-0:3306", online); ("mysql-1:3306", online)].

(** Only mysql-1 is ONLINE: the local instance is not in the topology. *)
Definition statusWithoutLocal : innodb.ClusterStatus :=
  snapshot [("mysql-1:3306", online)].

(** mysql-0 is not labeled, mysql-1 is labeled primary, mysql-2 is labeled
    secondary. *)
Definition somePods : list corev1.Pod :=
  [pod "mysql-0" (Some [(MySQLClusterLabel, "mysql")]);
   pod "mysql-1" (Some [(MySQLClusterLabel, "mysql");
                        (LabelMySQLClusterRole, "primary")]);
   pod "mysql-2" (Some [(MySQLClusterLabel, "mysql");
                        (LabelMySQLClusterRole, "secondary")])].

Definition world (st : list (string * Obj)) (q : list string) : World :=
  {| pods := somePods; patchLog := []; store := list_to_map st;
     queue := q; shuttingDown := false; trace := [] |}.

Definition w0 : World := world [("mysql", ObjClusterStatus status)] ["mysql"].


(** The key "gone" is queued but its snapshot is not in the store. *)
Definition w0Stale : World := world [] ["gone"].

(** The world a first pass leaves. *)
Definition w1 : World := snd (syncHandler clc "mysql" w0).


(** The world once the worker has dequeued the key. *)
Definition w0Dequeued : World := withQueue w0 [] EvQueueGet.

Definition unlabeled : corev1.Pod := pod "mysql-3" None.

End Scenario.


(** ** The rest of the controller *)

(** [NewClusterLabelerController]: the controller for a local instance and
    its collaborators. The store made by [cache.NewStore(keyFunc)] is an
    in-memory map that fails only when [keyFunc] does. *)
Definition NewClusterLabelerController (localInstance : cluster.Instance)
    (lister : PodLister) (control : PodControlInterface) : ClusterLabelerController :=
  {| localInstance := localInstance;
     podLister := lister;
     podControl := control;
     storeFaults := {| getByKeyFault := fun _ => None; addFault := fun _ => None |} |}.

(** The world of a new controller over the pods [ps]: an empty store and an
    empty queue that is not shut down. *)
Definition newWorld (ps : list corev1.Pod) : World :=
  {| pods := ps; patchLog := []; store := ∅; queue := [];
     shuttingDown := false; trace := [] |}.



(** The store holds cluster statuses only, each under its cluster name. *)
Definition StoreWellTyped (w : World) : Prop :=
  forall key obj,
    store w !! key = Some obj ->
    exists status, obj = ObjClusterStatus status /\ innodb.ClusterName status = key.

(** A pod after a pass, against the pod before it: the same but for the
    role label, and the very same when the pod is neither a member of the
    cluster nor the local instance's pod. *)
Definition Kept clc (before after : corev1.Pod) : Prop :=
  SameButRole before after
  /\ (isMember clc before = false -> podKey before <> localKey clc -> after = before).



(** The role values the labeler writes: the two roles, or none. *)
Definition isRoleValue (v : string) : Prop :=
  v = "" \/ v = MySQLClusterRolePrimary \/ v = MySQLClusterRoleSecondary.

(** The role a value stands for. *)
Definition roleFor (v : string) : option string :=
  if bool_decide (v = "") then None else Some v.

(** The [Done] calls in a trace. *)
Definition doneKeys (t : list Event) : list string :=
  flat_map (fun e => match e with EvQueueDone k => [k] | _ => [] end) t.


Module More.

(** A pod of the scenario's cluster with no role label and one with a role
    unknown to the labeler. *)
Definition plain : corev1.Pod :=
  Scenario.pod "mysql-5" (Some [(MySQLClusterLabel, "mysql")]).

(** The local instance's pod without any label. *)
Definition localUnlabeled : corev1.Pod := Scenario.pod "mysql-0" None.

Definition wPlain : World :=
  {| pods := [plain]; patchLog := []; store := ∅; queue := [];
     shuttingDown := false; trace := [] |}.

(** The pods of the scenario without the local instance's pod. *)
Definition wNoLocal : World :=
  {| pods := tl Scenario.somePods; patchLog := [];
     store := {[ "mysql" := ObjClusterStatus Scenario.status ]};
     queue := ["mysql"]; shuttingDown := false; trace := [] |}.

(** The local instance's pod has a nil label map. *)
Definition wLocalUnlabeled : World :=
  {| pods := localUnlabeled :: tl Scenario.somePods; patchLog := [];
     store := {[ "mysql" := ObjClusterStatus Scenario.status ]};
     queue := ["mysql"]; shuttingDown := false; trace := [] |}.


(** A new controller over the pods of the scenario. *)
Definition fresh : ClusterLabelerController :=
  NewClusterLabelerController Scenario.local Scenario.noListerFault
    {| patchFault := fun _ _ _ => None |}.

Definition wFresh : World := newWorld Scenario.somePods.

End More.

(** ** updateClusterRoleLabel *)

Lemma relabeled_SameButRole pod val : SameButRole pod (relabeled pod val).
Proof.
  unfold SameButRole, relabeled; simpl.
  repeat split; try reflexivity.
  - destruct (bool_decide (val = "")), (corev1.Labels pod); simpl; congruence.
  - destruct (bool_decide (val = "")), (corev1.Labels pod); simpl; congruence.
  - intros k Hk.
    destruct (bool_decide (val = "")), (corev1.Labels pod) as [ls|]; simpl; trivial.
    + apply lookup_delete_ne; congruence.
    + apply lookup_insert_ne; congruence.
Qed.

Lemma podKey_relabeled pod val : podKey (relabeled pod val) = podKey pod.
Proof. reflexivity. Qed.

Lemma PatchPod_Patched clc old new w :
  exists r w',
    PatchPod clc old new w = (Done r, w')
    /\ Patched w [{| patchOld := old; patchNew := new; patchResult := r |}] w'
    /\ (r = None <-> patchFault (podControl clc) (patchLog w) old new = None
                     /\ is_Some (lookupPod (podKey old) (pods w))).
Proof.
  unfold PatchPod.
  destruct (patchFault (podControl clc) (patchLog w) old new) as [e|] eqn:Hf.
  - eexists _, _. split; [reflexivity|]. split.
    + unfold Patched, replay, applyCall; simpl. tauto.
    + split; [discriminate | intros [? _]; discriminate].
  - destruct (lookupPod (podKey old) (pods w)) as [p|] eqn:Hl.
    + eexists _, _. split; [reflexivity|]. split.
      * unfold Patched, replay, applyCall; simpl. tauto.
      * split; eauto.
    + eexists _, _. split; [reflexivity|]. split.
      * unfold Patched, replay, applyCall; simpl. tauto.
      * split; [discriminate | intros [_ [? ?]]; discriminate].
Qed.

(** [updateClusterRoleLabel] either panics before any call, on a nil label
    map and a role to write, or is one [PatchPod] of the relabeled copy. *)
Lemma updateClusterRoleLabel_unfold clc pod val :
  updateClusterRoleLabel clc pod val =
    if negb (bool_decide (val = "")) && bool_decide (corev1.Labels pod = None)
    then panic "assignment to entry in nil map"
    else PatchPod clc pod (relabeled pod val).
Proof.
  unfold updateClusterRoleLabel, relabeled, corev1.DeepCopy.
  destruct (bool_decide (val = "")); simpl; [reflexivity|].
  destruct (corev1.Labels pod); reflexivity.
Qed.

(** C7. Whatever [updateClusterRoleLabel] does for a pod and a role value, it
    makes at most one [PatchPod] call; the old object of that call is the pod
    it was given and the new object differs from it at most in the value of
    the label "v1.mysql.oracle.com/role": every other label and every other
    field is the same. *)
Theorem updateClusterRoleLabel_touches_only_role_label :
  forall clc pod val w,
    LabelMySQLClusterRole = "v1.mysql.oracle.com/role"
    /\ match updateClusterRoleLabel clc pod val w with
       | (Panic _, w') => w' = w
       | (Done r, w') =>
           exists new,
             Patched w [{| patchOld := pod; patchNew := new; patchResult := r |}] w'
             /\ SameButRole pod new
       end.
Proof.
  intros clc pod val w. split; [reflexivity|].
  rewrite updateClusterRoleLabel_unfold.
  destruct (negb (bool_decide (val = "")) && bool_decide (corev1.Labels pod = None)).
  - reflexivity.
  - destruct (PatchPod_Patched clc pod (relabeled pod val) w) as (r & w' & -> & HP & _).
    exists (relabeled pod val). split; [exact HP | apply relabeled_SameButRole].
Qed.

(** C9. On a pod whose label map is nil, [updateClusterRoleLabel] with a
    non-empty role panics (an assignment into a nil map) before any call is
    made, so it returns no error value; with the empty role it does not
    panic and submits the pod unchanged. *)
Theorem updateClusterRoleLabel_nil_labels :
  forall clc pod val w,
    corev1.Labels pod = None ->
    (val <> "" ->
     updateClusterRoleLabel clc pod val w = (Panic "assignment to entry in nil map", w))
    /\ exists r w',
         updateClusterRoleLabel clc pod "" w = (Done r, w')
         /\ Patched w [{| patchOld := pod; patchNew := pod; patchResult := r |}] w'.
Proof.
  intros clc pod val w Hnil. split.
  - intros Hval. rewrite updateClusterRoleLabel_unfold.
    rewrite (bool_decide_eq_false_2 _ Hval), (bool_decide_eq_true_2 _ Hnil). reflexivity.
  - rewrite updateClusterRoleLabel_unfold. simpl.
    assert (relabeled pod "" = pod) as ->.
    { unfold relabeled. simpl. rewrite Hnil. destruct pod; simpl in *. subst. reflexivity. }
    destruct (PatchPod_Patched clc pod pod w) as (r & w' & HP & HQ & _). eauto.
Qed.

(** ** inCluster and the addresses syncHandler looks up *)

Lemma inCluster_spec status address :
  inCluster status address = true <->
  exists inst,
    innodb.Topology (innodb.DefaultReplicaSet status) !! address = Some inst
    /\ innodb.Status inst = innodb.InstanceStatusOnline.
Proof.
  unfold inCluster.
  destruct (innodb.Topology (innodb.DefaultReplicaSet status) !! address) as [inst|].
  - rewrite bool_decide_eq_true. split.
    + intros H. exists inst. auto.
    + intros (i & Hi & Hs). congruence.
  - split; [discriminate | intros (i & Hi & _); discriminate].
Qed.

Lemma Sprintf_s_d_port_inj name p q :
  Sprintf_s_d name p = Sprintf_s_d name q -> p = q.
Proof.
  unfold Sprintf_s_d. intros H.
  apply (inj (String.append name)) in H.
  apply (inj (String.append ":")) in H.
  apply (inj pretty) in H. exact H.
Qed.

Section SameMembership.

Variable clc : ClusterLabelerController.
Variables s1 s2 : innodb.ClusterStatus.
Hypothesis agree :
  forall pod, inCluster s1 (podAddress clc pod) = inCluster s2 (podAddress clc pod).

Lemma relabelPrimaries_ext primaries b w :
  relabelPrimaries clc s1 primaries b w = relabelPrimaries clc s2 primaries b w.
Proof.
  revert b w. induction primaries as [|pod rest IH]; intros b w; simpl; [reflexivity|].
  rewrite (agree pod).
  destruct (bool_decide (corev1.Name pod = cluster.Name (localInstance clc))); [apply IH|].
  unfold bind.
  destruct (updateClusterRoleLabel clc pod _ w) as [[[e|]|m] w']; try reflexivity.
  apply IH.
Qed.

Lemma relabelNonPrimaries_ext cn pods_ w :
  relabelNonPrimaries clc s1 cn pods_ w = relabelNonPrimaries clc s2 cn pods_ w.
Proof.
  revert w. induction pods_ as [|pod rest IH]; intros w;
    cbn [relabelNonPrimaries]; [reflexivity|].
  rewrite (agree pod). unfold bind.
  repeat (case_match; try reflexivity; try apply IH).
Qed.

Lemma syncStatus_ext w : syncStatus clc s1 w = syncStatus clc s2 w.
Proof.
  unfold syncStatus, bind. cbv zeta.
  repeat first [ reflexivity | apply relabelNonPrimaries_ext
               | rewrite relabelPrimaries_ext | case_match ].
Qed.

End SameMembership.

(** C10. The address every membership check of the pass looks up for a pod is
    the pod's name joined with the local instance's port by a colon, and
    [inCluster] holds of it exactly when the topology of the snapshot's
    default replica set maps that very key to an instance whose status is
    ONLINE. So a pass sees of a snapshot only the entries under such keys
    (two snapshots that agree on them run the same pass), a pod none of whose
    entries sits under that key is not in the cluster, and a different port
    gives a different key. *)
Theorem inCluster_looks_up_name_and_local_port :
  forall clc status pod,
    podAddress clc pod
      = corev1.Name pod +:+ ":" +:+ pretty (cluster.Port (localInstance clc))
    /\ (inCluster status (podAddress clc pod) = true <->
        exists inst,
          innodb.Topology (innodb.DefaultReplicaSet status)
            !! (corev1.Name pod +:+ ":" +:+ pretty (cluster.Port (localInstance clc)))
            = Some inst
          /\ innodb.Status inst = "ONLINE")
    /\ (forall status', 
          (forall pod', inCluster status (podAddress clc pod')
                        = inCluster status' (podAddress clc pod')) ->
          forall w, syncStatus clc status w = syncStatus clc status' w)
    /\ (forall address inst,
          address <> podAddress clc pod ->
          innodb.Topology (innodb.DefaultReplicaSet status) = {[ address := inst ]} ->
          inCluster status (podAddress clc pod) = false)
    /\ (forall port,
          port <> cluster.Port (localInstance clc) ->
          Sprintf_s_d (corev1.Name pod) port <> podAddress clc pod).
Proof.
  intros clc status pod. split; [reflexivity|]. split; [apply inCluster_spec|].
  split; [|split].
  - intros status' Hagree w. apply syncStatus_ext. exact Hagree.
  - intros address inst Hne Htop. unfold inCluster. rewrite Htop.
    rewrite lookup_singleton_ne by exact Hne. reflexivity.
  - intros port Hne Heq. apply Hne. eapply Sprintf_s_d_port_inj. exact Heq.
Qed.

(** ** The stale key *)

Lemma syncHandler_absent clc key w :
  getByKeyFault (storeFaults clc) key = None ->
  store w !! key = None ->
  syncHandler clc key w = (Done None, w).
Proof.
  intros Hf Hs. unfold syncHandler, bind, GetByKey. rewrite Hf, Hs. reflexivity.
Qed.

(** C4. When the store holds no snapshot under the key, [syncHandler] returns
    nil and leaves the world as it was: no [PatchPod] call is made. A worker
    that dequeues such a key then calls [Forget] and [Done] on it and never
    [AddRateLimited]: the key is not retried. *)
Theorem stale_key_succeeds_without_retry :
  forall clc key rest w,
    getByKeyFault (storeFaults clc) key = None ->
    store w !! key = None ->
    queue w = key :: rest ->
    syncHandler clc key w = (Done None, w)
    /\ exists w',
         processNextWorkItem clc w = (Done (Some true), w')
         /\ trace w' = trace w ++ [EvQueueGet; EvQueueForget key; EvQueueDone key]
         /\ ~ In (EvQueueAddRateLimited key) [EvQueueGet; EvQueueForget key; EvQueueDone key]
         /\ patchLog w' = patchLog w
         /\ pods w' = pods w
         /\ store w' = store w
         /\ queue w' = rest.
Proof.
  intros clc key rest w Hf Hs Hq. split; [apply syncHandler_absent; assumption|].
  unfold processNextWorkItem, bind, queueGet. rewrite Hq.
  unfold deferring, bind.
  rewrite syncHandler_absent by assumption.
  simpl. eexists. split; [reflexivity|]. simpl.
  repeat split.
  - rewrite <- !app_assoc. reflexivity.
  - intros [H|[H|[H|[]]]]; discriminate.
Qed.

(** ** Ingestion *)

(** C6. [EnqueueClusterStatus] returns an error and leaves the store and the
    queue alone when its argument is not a cluster status, for no key can be
    derived. For a cluster status it first adds the snapshot to the store
    under the cluster name and then adds that key to the queue, so the key
    is in the queue only with its snapshot in the store; when the store
    refuses the snapshot the error is returned and nothing is enqueued. *)
Theorem EnqueueClusterStatus_stores_then_enqueues :
  forall clc w,
    (forall typeName,
       exists e, EnqueueClusterStatus clc (ObjOther typeName) w = (Done (Some e), w)
                 /\ snd (keyFunc (ObjOther typeName)) = Some e)
    /\ (forall status,
          let obj := ObjClusterStatus status in
          let key := innodb.ClusterName status in
          keyFunc obj = (key, None)
          /\ (addFault (storeFaults clc) obj = None ->
              exists w',
                EnqueueClusterStatus clc obj w = (Done None, w')
                /\ trace w' = trace w ++ [EvStoreAdd key; EvQueueAdd key]
                /\ store w' = <[key := obj]> (store w)
                /\ store w' !! key = Some obj
                /\ In key (queue w')
                /\ pods w' = pods w /\ patchLog w' = patchLog w)
          /\ (forall e,
                addFault (storeFaults clc) obj = Some e ->
                EnqueueClusterStatus clc obj w
                  = (Done (Some (ErrWrap e "adding cluster status to store")), w))).
Proof.
  intros clc w. split.
  - intros t. eexists. split; reflexivity.
  - intros status obj key. split; [reflexivity|]. split.
    + intros Hf. unfold EnqueueClusterStatus, bind, storeAdd. simpl. fold obj.
      rewrite Hf. simpl. eexists. split; [reflexivity|]. simpl.
      repeat split.
      * rewrite <- app_assoc. reflexivity.
      * apply lookup_insert_eq.
      * destruct (bool_decide (innodb.ClusterName status ∈ queue w)) eqn:Hin.
        -- apply bool_decide_eq_true in Hin. apply list_elem_of_In. exact Hin.
        -- apply in_or_app. right. left. reflexivity.
    + intros e Hf. unfold EnqueueClusterStatus, bind, storeAdd. simpl. fold obj.
      rewrite Hf. reflexivity.
Qed.


(** ** Runs of a plan *)

Lemma Patched_refl w : Patched w [] w.
Proof. unfold Patched. rewrite app_nil_r. simpl. tauto. Qed.

Lemma Patched_trans w1 c1 w2 c2 w3 :
  Patched w1 c1 w2 -> Patched w2 c2 w3 -> Patched w1 (c1 ++ c2) w3.
Proof.
  unfold Patched, replay.
  intros (Hl1 & Hp1 & Hs1 & Hq1 & Hd1 & Ht1) (Hl2 & Hp2 & Hs2 & Hq2 & Hd2 & Ht2).
  rewrite fold_left_app, app_assoc.
  repeat split; congruence.
Qed.

Lemma PlanRun_app_stop plan1 plan2 calls ending :
  PlanRun plan1 calls ending -> ending <> Completed ->
  PlanRun (plan1 ++ plan2) calls ending.
Proof.
  induction 1; intros Hne; simpl.
  - congruence.
  - constructor.
  - constructor.
  - constructor; auto.
Qed.

Lemma PlanRun_app plan1 plan2 calls1 calls2 ending :
  PlanRun plan1 calls1 Completed -> PlanRun plan2 calls2 ending ->
  PlanRun (plan1 ++ plan2) (calls1 ++ calls2) ending.
Proof.
  intros H1 H2. remember Completed as c eqn:Hc.
  induction H1; simpl; try discriminate.
  - exact H2.
  - constructor; auto.
Qed.

Lemma PlanRun_completed plan calls :
  PlanRun plan calls Completed ->
  calls = List.map (fun pv => callOf pv None) plan
  /\ Forall (fun pv => pv.2 = "" \/ corev1.Labels pv.1 <> None) plan.
Proof.
  intros H. remember Completed as c eqn:Hc.
  induction H; try discriminate.
  - split; [reflexivity | constructor].
  - destruct (IHPlanRun Hc) as [-> HF]. split; [reflexivity|].
    constructor; [exact H | exact HF].
Qed.

Lemma replay_completed plan ps :
  replay (List.map (fun pv => callOf pv None) plan) ps = applyPlan plan ps.
Proof.
  unfold replay, applyPlan. revert ps.
  induction plan as [|pv plan IH]; intros ps; simpl; [reflexivity|].
  apply IH.
Qed.

(** One call of [updateClusterRoleLabel], as a step of a run. *)
Lemma updateClusterRoleLabel_step clc p v w :
  (corev1.Labels p = None /\ v <> ""
   /\ exists m, updateClusterRoleLabel clc p v w = (Panic m, w))
  \/ ((v = "" \/ corev1.Labels p <> None)
      /\ exists r w', updateClusterRoleLabel clc p v w = (Done r, w')
                      /\ Patched w [callOf (p, v) r] w').
Proof.
  rewrite updateClusterRoleLabel_unfold.
  destruct (bool_decide (v = "")) eqn:Hv; simpl.
  - right. apply bool_decide_eq_true in Hv. split; [left; exact Hv|].
    destruct (PatchPod_Patched clc p (relabeled p v) w) as (r & w' & HP & HQ & _). eauto.
  - apply bool_decide_eq_false in Hv.
    destruct (bool_decide (corev1.Labels p = None)) eqn:Hl.
    + left. apply bool_decide_eq_true in Hl. eauto.
    + right. apply bool_decide_eq_false in Hl. split; [right; exact Hl|].
      destruct (PatchPod_Patched clc p (relabeled p v) w) as (r & w' & HP & HQ & _). eauto.
Qed.

Lemma relabelPrimaries_run clc status l :
  forall b w out w',
    relabelPrimaries clc status l b w = (out, w') ->
    exists calls ending,
      Patched w calls w'
      /\ PlanRun (planFor (decidePrimary clc status) l) calls ending
      /\ match ending with
         | Completed => out = Done (b || existsb (isLocal clc) l, None)
         | Failed e => exists b' msg, out = Done (b', Some (ErrWrap e msg))
         | Aborted => exists m, out = Panic m
         end.
Proof.
  induction l as [|pod rest IH]; intros b w out w' Hrun.
  - simpl in Hrun. injection Hrun as <- <-.
    exists [], Completed. split; [apply Patched_refl|]. split; [constructor|].
    rewrite orb_false_r. reflexivity.
  - cbn [relabelPrimaries] in Hrun. unfold planFor. cbn [flat_map].
    fold (planFor (decidePrimary clc status) rest).
    unfold decidePrimary at 1. cbn [existsb]. unfold isLocal at 1 2.
    destruct (bool_decide (corev1.Name pod = cluster.Name (localInstance clc))).
    + apply IH in Hrun as (calls & ending & HP & HR & Hout).
      exists calls, ending. split; [exact HP|]. split; [exact HR|].
      destruct ending; trivial. rewrite orb_true_r. exact Hout.
    + unfold bind in Hrun. cbn [app].
      set (role := if negb (inCluster status (podAddress clc pod)) then ""
                   else MySQLClusterRoleSecondary) in *.
      destruct (updateClusterRoleLabel_step clc pod role w)
        as [(Hnil & Hv & m & Hu) | (Hok & r & w1 & Hu & HP1)];
        rewrite Hu in Hrun.
      * injection Hrun as <- <-.
        exists [], Aborted. split; [apply Patched_refl|]. split; [constructor|]. eauto.
      * destruct r as [e|].
        -- injection Hrun as <- <-.
           exists [callOf (pod, role) (Some e)], (Failed e).
           split; [exact HP1|]. split; [constructor|]. eauto.
        -- apply IH in Hrun as (calls & ending & HP & HR & Hout).
           exists (callOf (pod, role) None :: calls), ending.
           split; [exact (Patched_trans _ _ _ _ _ HP1 HP)|].
           split; [constructor; assumption|].
           exact Hout.
Qed.

Lemma relabelNonPrimaries_run clc status l :
  forall w out w',
    relabelNonPrimaries clc status (cluster.ClusterName (localInstance clc)) l w = (out, w') ->
    exists calls ending,
      Patched w calls w'
      /\ PlanRun (planFor (decideNonPrimary clc status) l) calls ending
      /\ match ending with
         | Completed => out = Done None
         | Failed e => exists msg, out = Done (Some (ErrWrap e msg))
         | Aborted => exists m, out = Panic m
         end.
Proof.
  induction l as [|pod rest IH]; intros w out w' Hrun.
  - simpl in Hrun. injection Hrun as <- <-.
    exists [], Completed. split; [apply Patched_refl|]. split; [constructor|]. reflexivity.
  - cbn [relabelNonPrimaries] in Hrun. unfold planFor. cbn [flat_map].
    fold (planFor (decideNonPrimary clc status) rest).
    unfold decideNonPrimary at 1. cbv zeta. unfold isLocal at 1.
    assert (Hstep : forall v,
      bind (updateClusterRoleLabel clc pod v)
        (fun err => match err with
                    | Some e => ret (Some (ErrWrap e (if bool_decide (v = "") then "removing role label" else "labeling as secondary")))
                    | None => relabelNonPrimaries clc status
                                (cluster.ClusterName (localInstance clc)) rest
                    end) w = (out, w') ->
      exists calls ending,
        Patched w calls w'
        /\ PlanRun ((pod, v) :: planFor (decideNonPrimary clc status) rest) calls ending
        /\ match ending with
           | Completed => out = Done None
           | Failed e => exists msg, out = Done (Some (ErrWrap e msg))
           | Aborted => exists m, out = Panic m
           end).
    { intros v Hb. unfold bind in Hb.
      destruct (updateClusterRoleLabel_step clc pod v w)
        as [(Hnil & Hv & m & Hu) | (Hok & r & w1 & Hu & HP1)];
        rewrite Hu in Hb.
      - injection Hb as <- <-.
        exists [], Aborted. split; [apply Patched_refl|]. split; [constructor|]. eauto.
      - destruct r as [e|].
        + injection Hb as <- <-.
          exists [callOf (pod, v) (Some e)], (Failed e).
          split; [exact HP1|]. split; [constructor|]. eauto.
        + apply IH in Hb as (calls & ending & HP & HR & Hout).
          exists (callOf (pod, v) None :: calls), ending.
          split; [exact (Patched_trans _ _ _ _ _ HP1 HP)|].
          split; [constructor; assumption|].
          exact Hout. }
    destruct (negb (inCluster status (podAddress clc pod))).
    + destruct (labels.Matches _ _).
      * apply (Hstep ""). exact Hrun.
      * apply IH. exact Hrun.
    + destruct (_ && _).
      * apply (Hstep MySQLClusterRoleSecondary). exact Hrun.
      * apply IH. exact Hrun.
Qed.

Lemma Patched_pods_completed w plan calls w' :
  Patched w calls w' -> PlanRun plan calls Completed ->
  pods w' = applyPlan plan (pods w).
Proof.
  intros (_ & Hp & _) HR. apply PlanRun_completed in HR as [-> _].
  rewrite Hp. apply replay_completed.
Qed.

Lemma endsWith_loop ending (out : Outcome error) :
  match ending with
  | Completed => out = Done None
  | Failed e => exists msg, out = Done (Some (ErrWrap e msg))
  | Aborted => exists m, out = Panic m
  end -> endsWith ending out.
Proof. destruct ending; simpl; trivial. intros (m & ->). discriminate. Qed.

Lemma labelLocalPrimary_run clc b w out w' :
  labelLocalPrimary clc b w = (out, w') ->
  exists calls ending,
    Patched w calls w'
    /\ PlanRun (planLocal clc b (pods w)) calls ending
    /\ endsWith ending out
    /\ (ending = Completed ->
        b = true \/ is_Some (lookupPod (localKey clc) (pods w))).
Proof.
  unfold labelLocalPrimary, planLocal. intros Hrun.
  destruct b; simpl in Hrun.
  { injection Hrun as <- <-. exists [], Completed.
    split; [apply Patched_refl|]. split; [constructor |]. split; [reflexivity | auto]. }
  unfold bind, getPod in Hrun. fold (localKey clc) in Hrun.
  destruct (getFault (podLister clc) _ _) as [e|].
  { injection Hrun as <- <-. exists [], Aborted.
    split; [apply Patched_refl|]. split; [constructor |].
    split; discriminate. }
  destruct (lookupPod (localKey clc) (pods w)) as [p|].
  2:{ injection Hrun as <- <-. exists [], Aborted.
      split; [apply Patched_refl|]. split; [constructor |].
      split; discriminate. }
  destruct (updateClusterRoleLabel_step clc p MySQLClusterRolePrimary w)
    as [(Hnil & Hv & m & Hu) | (Hok & r & w2 & Hu & HP2)];
    rewrite Hu in Hrun.
  - injection Hrun as <- <-. exists [], Aborted.
    split; [apply Patched_refl|]. split; [constructor |].
    split; discriminate.
  - destruct r as [e|]; injection Hrun as <- <-.
    + exists [callOf (p, MySQLClusterRolePrimary) (Some e)], (Failed e).
      split; [exact HP2|]. split; [constructor |].
      split; [simpl; eauto | discriminate].
    + exists [callOf (p, MySQLClusterRolePrimary) None], Completed.
      split; [exact HP2|]. split; [constructor; [exact Hok | constructor]|].
      split; [reflexivity | eauto].
Qed.

Lemma endsWith_stop ending (out : Outcome error) :
  endsWith ending out -> ending <> Completed ->
  (exists e, out = Done (Some e)) \/ (exists m, out = Panic m).
Proof.
  destruct ending; simpl; intros H Hne.
  - congruence.
  - destruct H as (msg & ->). eauto.
  - destruct out as [[e|]|m]; eauto. congruence.
Qed.

(** Every run of the pass carries out its plan, in order, up to where it
    ends. *)
Lemma syncStatus_run clc status w out w' :
  syncStatus clc status w = (out, w') ->
  exists calls ending,
    Patched w calls w'
    /\ PlanRun (passPlan clc status (pods w)) calls ending
    /\ endsWith ending out
    /\ (ending = Completed ->
        existsb (isLocal clc) (primariesOf clc (pods w)) = true
        \/ is_Some (lookupPod (localKey clc)
                      (applyPlan (planPrimaries clc status (pods w)) (pods w)))).
Proof.
  unfold syncStatus, passPlan. cbv zeta. unfold bind at 1. unfold listPods at 1.
  intros Hrun.
  destruct (listFault (podLister clc) _ _) as [e|].
  { injection Hrun as <- <-. exists [], Aborted.
    split; [apply Patched_refl|]. split; [constructor |]. split; discriminate. }
  fold (primariesOf clc (pods w)) in Hrun.
  unfold bind at 1 in Hrun.
  destruct (relabelPrimaries clc status (primariesOf clc (pods w)) false w)
    as [out1 w1] eqn:H1.
  apply relabelPrimaries_run in H1 as (calls1 & ending1 & HP1 & HR1 & Hout1).
  fold (planPrimaries clc status (pods w)) in HR1.
  destruct ending1 as [|e|].
  2:{ destruct Hout1 as (b' & msg & ->). injection Hrun as <- <-.
      exists calls1, (Failed e). split; [exact HP1|].
      split; [apply PlanRun_app_stop; [exact HR1 | discriminate] |].
      split; [simpl; eauto | discriminate]. }
  2:{ destruct Hout1 as (m & ->). injection Hrun as <- <-.
      exists calls1, Aborted. split; [exact HP1|].
      split; [apply PlanRun_app_stop; [exact HR1 | discriminate] |].
      split; discriminate. }
  subst out1. simpl orb in Hrun.
  pose proof (Patched_pods_completed _ _ _ _ HP1 HR1) as Hpods1.
  set (primaryLabeled := existsb (isLocal clc) (primariesOf clc (pods w))) in *.
  rewrite <- Hpods1.
  unfold bind at 1 in Hrun.
  destruct (labelLocalPrimary clc primaryLabeled w1) as [out2 w2] eqn:H2.
  apply labelLocalPrimary_run in H2 as (calls2 & ending2 & HP2 & HR2 & Hout2 & Hfound).
  pose proof (Patched_trans _ _ _ _ _ HP1 HP2) as HP12.
  assert (ending2 = Completed \/ ending2 <> Completed) as [Hcomp|Hncomp]
    by (destruct ending2; [left; reflexivity | right; discriminate ..]).
  2:{ assert (out = out2 /\ w' = w2) as [-> ->]
        by (destruct (endsWith_stop _ _ Hout2 Hncomp) as [(e & ->)|(m & ->)];
            injection Hrun as <- <-; split; reflexivity).
      exists (calls1 ++ calls2), ending2. split; [exact HP12|].
      split; [apply PlanRun_app; [exact HR1|]; apply PlanRun_app_stop; assumption|].
      split; [exact Hout2 | congruence]. }
  subst ending2. simpl in Hout2. subst out2. specialize (Hfound eq_refl).
  pose proof (Patched_pods_completed _ _ _ _ HP2 HR2) as Hpods2.
  rewrite <- Hpods2.
  unfold bind, listPods in Hrun.
  destruct (listFault (podLister clc) _ _) as [e|].
  { injection Hrun as <- <-. exists ((calls1 ++ calls2) ++ []), Aborted.
    split; [rewrite app_nil_r; exact HP12|]. split; [|split; discriminate].
    rewrite <- app_assoc.
    apply PlanRun_app; [exact HR1|]. apply PlanRun_app; [exact HR2|]. constructor. }
  fold (nonPrimariesOf clc (pods w2)) in Hrun.
  apply relabelNonPrimaries_run in Hrun as (calls3 & ending3 & HP3 & HR3 & Hout3).
  exists ((calls1 ++ calls2) ++ calls3), ending3.
  split; [exact (Patched_trans _ _ _ _ _ HP12 HP3)|].
  split; [|split; [apply endsWith_loop; exact Hout3 | intros _; exact Hfound]].
  rewrite <- app_assoc.
  apply PlanRun_app; [exact HR1|].
  apply PlanRun_app; [exact HR2|]. exact HR3.
Qed.

(** ** Pods by key *)

Lemma hasKey_true k p : hasKey k p = true <-> podKey p = k.
Proof. unfold hasKey. apply bool_decide_eq_true. Qed.

Lemma hasKey_false k p : hasKey k p = false <-> podKey p <> k.
Proof. unfold hasKey. apply bool_decide_eq_false. Qed.

Lemma lookupPod_Some k ps p :
  lookupPod k ps = Some p -> In p ps /\ podKey p = k.
Proof.
  unfold lookupPod. intros H. apply find_some in H as [Hin Hk].
  split; [exact Hin | apply hasKey_true; exact Hk].
Qed.

Lemma NoDup_keys_eq ps p q :
  List.NoDup (List.map podKey ps) -> In p ps -> In q ps -> podKey p = podKey q -> p = q.
Proof.
  induction ps as [|a ps IH]; simpl; intros Hnd Hp Hq Hk; [contradiction|].
  inversion Hnd as [|? ? Hnotin Hnd']; subst.
  destruct Hp as [->|Hp], Hq as [->|Hq]; trivial.
  - exfalso. apply Hnotin. rewrite Hk. apply in_map. exact Hq.
  - exfalso. apply Hnotin. rewrite <- Hk. apply in_map. exact Hp.
  - apply IH; assumption.
Qed.

Lemma lookupPod_In ps p :
  List.NoDup (List.map podKey ps) -> In p ps -> lookupPod (podKey p) ps = Some p.
Proof.
  intros Hnd Hin. unfold lookupPod.
  destruct (List.find (hasKey (podKey p)) ps) as [q|] eqn:Hf.
  - apply find_some in Hf as [Hq Hk]. apply hasKey_true in Hk.
    f_equal. eapply NoDup_keys_eq; eauto.
  - exfalso. eapply find_none in Hf; [|exact Hin].
    apply hasKey_false in Hf. congruence.
Qed.

Lemma replacePod_fresh k new ps :
  (forall q, In q ps -> podKey q <> k) -> replacePod k new ps = ps.
Proof.
  intros H. unfold replacePod. rewrite <- (map_id ps) at 2.
  apply map_ext_in. intros q Hq.
  apply H in Hq. apply hasKey_false in Hq. rewrite Hq. reflexivity.
Qed.

Lemma replacePod_app k new l1 l2 :
  replacePod k new (l1 ++ l2) = replacePod k new l1 ++ replacePod k new l2.
Proof. apply map_app. Qed.

Lemma replacePod_cons_eq p new ps :
  replacePod (podKey p) new (p :: ps) = new :: replacePod (podKey p) new ps.
Proof.
  unfold replacePod. cbn [List.map].
  rewrite (proj2 (hasKey_true _ _) eq_refl). reflexivity.
Qed.

Lemma applyPlan_cons p v plan ps :
  applyPlan ((p, v) :: plan) ps
  = applyPlan plan (replacePod (podKey p) (relabeled p v) ps).
Proof. reflexivity. Qed.

(** Relabeling, one by one, the pods of a list that a filter selects is
    relabeling them all at once, when keys tell the pods apart. *)
Lemma applyPlan_filter_gen decide sel ps :
  forall pre,
    List.NoDup (List.map podKey ps) ->
    (forall q p, In q pre -> In p ps -> podKey q <> podKey p) ->
    applyPlan (planFor decide (List.filter sel ps)) (pre ++ ps)
    = pre ++ List.map (fun p => if sel p then relabelBy decide p else p) ps.
Proof.
  induction ps as [|p ps IH]; intros pre Hnd Hpre; [reflexivity|].
  inversion Hnd as [|? ? Hnotin Hnd']; subst.
  assert (Hps : forall q, In q ps -> podKey q <> podKey p).
  { intros q Hq Heq. apply Hnotin. rewrite <- Heq. apply in_map. exact Hq. }
  assert (Hnext : forall p', podKey p' = podKey p ->
            forall q r, In q (pre ++ [p']) -> In r ps -> podKey q <> podKey r).
  { intros p' Hk q r Hq Hr. apply in_app_or in Hq as [Hq|[<-|[]]].
    - apply Hpre; [exact Hq | right; exact Hr].
    - rewrite Hk. intros Heq. apply (Hps r Hr). congruence. }
  cbn [List.filter List.map]. unfold relabelBy.
  destruct (sel p); [destruct (decide p) as [v|] eqn:Hd|].
  - unfold planFor. cbn [flat_map]. rewrite Hd. cbn [app].
    fold (planFor decide (List.filter sel ps)).
    rewrite applyPlan_cons.
    rewrite replacePod_app. rewrite (replacePod_fresh _ _ pre).
    2:{ intros q Hq. apply Hpre; [exact Hq | left; reflexivity]. }
    rewrite replacePod_cons_eq.
    rewrite (replacePod_fresh _ _ ps Hps).
    change (pre ++ relabeled p v :: ps) with (pre ++ [relabeled p v] ++ ps).
    rewrite app_assoc, IH; [|exact Hnd'|apply Hnext; reflexivity].
    rewrite <- app_assoc. reflexivity.
  - unfold planFor. cbn [flat_map]. rewrite Hd. cbn [app].
    fold (planFor decide (List.filter sel ps)).
    change (pre ++ p :: ps) with (pre ++ [p] ++ ps).
    rewrite app_assoc, IH; [|exact Hnd'|apply Hnext; reflexivity].
    rewrite <- app_assoc. reflexivity.
  - change (pre ++ p :: ps) with (pre ++ [p] ++ ps).
    rewrite app_assoc, IH; [|exact Hnd'|apply Hnext; reflexivity].
    rewrite <- app_assoc. reflexivity.
Qed.

Lemma applyPlan_filter decide sel ps :
  List.NoDup (List.map podKey ps) ->
  applyPlan (planFor decide (List.filter sel ps)) ps
  = List.map (fun p => if sel p then relabelBy decide p else p) ps.
Proof.
  intros Hnd. apply (applyPlan_filter_gen decide sel ps [] Hnd).
  intros q p [].
Qed.

Lemma map_keys_preserved (f : corev1.Pod -> corev1.Pod) ps :
  (forall p, podKey (f p) = podKey p) ->
  List.map podKey (List.map f ps) = List.map podKey ps.
Proof. intros H. rewrite map_map. apply map_ext. exact H. Qed.

(** ** What the selectors see of a pod, and what relabeling changes *)

Lemma role_label_is_not_cluster_label : LabelMySQLClusterRole <> MySQLClusterLabel.
Proof. discriminate. Qed.

Lemma selected_Primary clc p :
  selected (cluster.Namespace (localInstance clc))
    (PrimarySelector (cluster.ClusterName (localInstance clc))) p
  = isPrimaryMember clc p.
Proof.
  unfold selected, isPrimaryMember, isMember, labels.Matches, PrimarySelector, clusterOf, roleOf.
  simpl. rewrite andb_true_r, andb_assoc. reflexivity.
Qed.

Lemma selected_NonPrimary clc p :
  selected (cluster.Namespace (localInstance clc))
    (NonPrimarySelector (cluster.ClusterName (localInstance clc))) p
  = isMember clc p && negb (bool_decide (roleOf p = Some MySQLClusterRolePrimary)).
Proof.
  unfold selected, isMember, labels.Matches, NonPrimarySelector, clusterOf, roleOf.
  simpl. rewrite andb_true_r, andb_assoc. reflexivity.
Qed.

Lemma Matches_HasRole cn p :
  labels.Matches (HasRoleSelector cn) (labels.Set_ (corev1.Labels p))
  = bool_decide (clusterOf p = Some cn) && bool_decide (is_Some (roleOf p)).
Proof.
  unfold labels.Matches, HasRoleSelector, clusterOf, roleOf.
  simpl. rewrite andb_true_r. reflexivity.
Qed.

Lemma Matches_Secondary cn p :
  labels.Matches (SecondarySelector cn) (labels.Set_ (corev1.Labels p))
  = bool_decide (clusterOf p = Some cn)
    && bool_decide (roleOf p = Some MySQLClusterRoleSecondary).
Proof.
  unfold labels.Matches, SecondarySelector, clusterOf, roleOf.
  simpl. rewrite andb_true_r. reflexivity.
Qed.

Lemma clusterOf_relabeled p v : clusterOf (relabeled p v) = clusterOf p.
Proof.
  unfold clusterOf, relabeled. simpl.
  destruct (bool_decide (v = "")), (corev1.Labels p) as [ls|]; simpl; trivial.
  - apply lookup_delete_ne, role_label_is_not_cluster_label.
  - apply lookup_insert_ne, role_label_is_not_cluster_label.
Qed.

Lemma roleOf_relabeled p v :
  v = "" \/ corev1.Labels p <> None ->
  roleOf (relabeled p v) = if bool_decide (v = "") then None else Some v.
Proof.
  unfold roleOf, relabeled. simpl. intros Hok.
  destruct (bool_decide (v = "")) eqn:Hv, (corev1.Labels p) as [ls|]; simpl.
  - apply lookup_delete_eq.
  - apply lookup_empty.
  - apply lookup_insert_eq.
  - apply bool_decide_eq_false in Hv. destruct Hok; congruence.
Qed.

Lemma isMember_relabeled clc p v : isMember clc (relabeled p v) = isMember clc p.
Proof. unfold isMember. rewrite clusterOf_relabeled. reflexivity. Qed.

Lemma isMember_labels clc p : isMember clc p = true -> corev1.Labels p <> None.
Proof.
  unfold isMember, clusterOf. intros H Hnil. rewrite Hnil in H. simpl in H.
  rewrite lookup_empty in H. apply andb_true_iff in H as [_ H].
  apply bool_decide_eq_true in H. discriminate.
Qed.

Lemma isMember_hasKey clc p :
  isMember clc p = true -> hasKey (localKey clc) p = isLocal clc p.
Proof.
  unfold isMember, hasKey, isLocal, localKey, podKey. intros H.
  apply andb_true_iff in H as [H _]. apply bool_decide_eq_true in H.
  apply bool_decide_ext. rewrite H. split; [congruence | intros ->; reflexivity].
Qed.

Lemma hasKey_isLocal clc p : hasKey (localKey clc) p = true -> isLocal clc p = true.
Proof.
  unfold hasKey, localKey, podKey, isLocal. rewrite !bool_decide_eq_true. congruence.
Qed.

Lemma isLocal_relabeled clc p v : isLocal clc (relabeled p v) = isLocal clc p.
Proof. reflexivity. Qed.

Lemma podAddress_relabeled clc p v : podAddress clc (relabeled p v) = podAddress clc p.
Proof. reflexivity. Qed.

Lemma hasKey_relabeled k p v : hasKey k (relabeled p v) = hasKey k p.
Proof. reflexivity. Qed.

Lemma relabelBy_frame clc decide p :
  podKey (relabelBy decide p) = podKey p
  /\ isMember clc (relabelBy decide p) = isMember clc p
  /\ isLocal clc (relabelBy decide p) = isLocal clc p
  /\ podAddress clc (relabelBy decide p) = podAddress clc p.
Proof.
  unfold relabelBy. destruct (decide p); [|tauto].
  rewrite isMember_relabeled. tauto.
Qed.

Lemma afterPrimaries_frame clc status p :
  podKey (afterPrimaries clc status p) = podKey p
  /\ isMember clc (afterPrimaries clc status p) = isMember clc p
  /\ isLocal clc (afterPrimaries clc status p) = isLocal clc p
  /\ podAddress clc (afterPrimaries clc status p) = podAddress clc p.
Proof.
  unfold afterPrimaries. destruct (selected _ _ p); [apply relabelBy_frame | tauto].
Qed.

Lemma afterLocal_frame clc b p :
  podKey (afterLocal clc b p) = podKey p
  /\ isMember clc (afterLocal clc b p) = isMember clc p
  /\ isLocal clc (afterLocal clc b p) = isLocal clc p
  /\ podAddress clc (afterLocal clc b p) = podAddress clc p.
Proof.
  unfold afterLocal. destruct (_ && _); [|tauto].
  rewrite isMember_relabeled. tauto.
Qed.

Lemma afterNonPrimaries_frame clc status p :
  podKey (afterNonPrimaries clc status p) = podKey p
  /\ isMember clc (afterNonPrimaries clc status p) = isMember clc p
  /\ isLocal clc (afterNonPrimaries clc status p) = isLocal clc p
  /\ podAddress clc (afterNonPrimaries clc status p) = podAddress clc p.
Proof.
  unfold afterNonPrimaries. destruct (selected _ _ p); [apply relabelBy_frame | tauto].
Qed.

Lemma afterPass_frame clc status b p :
  podKey (afterPass clc status b p) = podKey p
  /\ isMember clc (afterPass clc status b p) = isMember clc p
  /\ isLocal clc (afterPass clc status b p) = isLocal clc p
  /\ podAddress clc (afterPass clc status b p) = podAddress clc p.
Proof.
  unfold afterPass.
  destruct (afterNonPrimaries_frame clc status
              (afterLocal clc b (afterPrimaries clc status p))) as (-> & -> & -> & ->).
  destruct (afterLocal_frame clc b (afterPrimaries clc status p)) as (-> & -> & -> & ->).
  apply afterPrimaries_frame.
Qed.

(** The role of a member after each step. *)
Lemma roleOf_afterPrimaries clc status p :
  isMember clc p = true ->
  roleOf (afterPrimaries clc status p)
  = if bool_decide (roleOf p = Some MySQLClusterRolePrimary) && negb (isLocal clc p)
    then (if inCluster status (podAddress clc p) then Some MySQLClusterRoleSecondary
          else None)
    else roleOf p.
Proof.
  intros Hm. unfold afterPrimaries. rewrite selected_Primary.
  unfold isPrimaryMember. rewrite Hm. cbn [andb].
  destruct (bool_decide (roleOf p = Some MySQLClusterRolePrimary)); [|reflexivity].
  unfold relabelBy, decidePrimary. cbn [andb].
  destruct (isLocal clc p); [reflexivity|]. cbn [negb].
  rewrite roleOf_relabeled by (right; eapply isMember_labels; eassumption).
  destruct (inCluster status (podAddress clc p)); reflexivity.
Qed.

Lemma roleOf_afterLocal clc b p :
  isMember clc p = true ->
  roleOf (afterLocal clc b p)
  = if negb b && isLocal clc p then Some MySQLClusterRolePrimary else roleOf p.
Proof.
  intros Hm. unfold afterLocal. rewrite (isMember_hasKey _ _ Hm).
  destruct (negb b && isLocal clc p); [|reflexivity].
  rewrite roleOf_relabeled by (right; eapply isMember_labels; eassumption).
  reflexivity.
Qed.

Lemma decideNonPrimary_member clc status p :
  isMember clc p = true ->
  decideNonPrimary clc status p
  = if negb (inCluster status (podAddress clc p)) then
      if bool_decide (is_Some (roleOf p)) then Some "" else None
    else if negb (isLocal clc p)
            && negb (bool_decide (roleOf p = Some MySQLClusterRoleSecondary))
    then Some MySQLClusterRoleSecondary else None.
Proof.
  intros Hm. unfold decideNonPrimary. cbv zeta.
  rewrite Matches_HasRole, Matches_Secondary.
  unfold isMember in Hm. apply andb_true_iff in Hm as [_ ->]. reflexivity.
Qed.

Lemma roleOf_afterNonPrimaries clc status p :
  isMember clc p = true ->
  roleOf p <> Some MySQLClusterRolePrimary ->
  isLocal clc p = false ->
  roleOf (afterNonPrimaries clc status p) = expectedRole clc status p.
Proof.
  intros Hm Hr Hl. unfold afterNonPrimaries, expectedRole. rewrite selected_NonPrimary.
  rewrite Hm, Hl, (bool_decide_eq_false_2 _ Hr). cbn [andb negb].
  unfold relabelBy. rewrite (decideNonPrimary_member _ _ _ Hm), Hl. cbn [negb andb].
  destruct (inCluster status (podAddress clc p)); cbn [negb].
  - destruct (bool_decide (roleOf p = Some MySQLClusterRoleSecondary)) eqn:Hs; cbn [negb].
    + apply bool_decide_eq_true in Hs. exact Hs.
    + rewrite roleOf_relabeled by (right; eapply isMember_labels; eassumption).
      reflexivity.
  - destruct (bool_decide (is_Some (roleOf p))) eqn:Hs.
    + rewrite roleOf_relabeled by (left; reflexivity). reflexivity.
    + apply bool_decide_eq_false in Hs. destruct (roleOf p); [|reflexivity].
      exfalso. apply Hs. eauto.
Qed.

Lemma afterNonPrimaries_primary clc status p :
  roleOf p = Some MySQLClusterRolePrimary -> afterNonPrimaries clc status p = p.
Proof.
  intros Hr. unfold afterNonPrimaries. rewrite selected_NonPrimary.
  rewrite (bool_decide_eq_true_2 _ Hr), andb_false_r. reflexivity.
Qed.

(** A member comes out of a completed pass with its expected role. *)
Lemma roleOf_afterPass clc status b p :
  isMember clc p = true ->
  (isLocal clc p = true -> b = bool_decide (roleOf p = Some MySQLClusterRolePrimary)) ->
  roleOf (afterPass clc status b p) = expectedRole clc status p.
Proof.
  intros Hm Hb. unfold afterPass.
  set (p1 := afterPrimaries clc status p).
  set (p2 := afterLocal clc b p1).
  destruct (afterPrimaries_frame clc status p) as (_ & Hm1 & Hl1 & Ha1). fold p1 in Hm1, Hl1, Ha1.
  destruct (afterLocal_frame clc b p1) as (_ & Hm2 & Hl2 & Ha2). fold p2 in Hm2, Hl2, Ha2.
  rewrite Hm in Hm1. rewrite Hm1 in Hm2.
  assert (Hr1 : roleOf p1 = if bool_decide (roleOf p = Some MySQLClusterRolePrimary)
                               && negb (isLocal clc p)
                            then (if inCluster status (podAddress clc p)
                                  then Some MySQLClusterRoleSecondary else None)
                            else roleOf p)
    by (apply roleOf_afterPrimaries; exact Hm).
  assert (Hr2 : roleOf p2 = if negb b && isLocal clc p1 then Some MySQLClusterRolePrimary
                            else roleOf p1)
    by (apply roleOf_afterLocal; exact Hm1).
  rewrite Hl1 in Hr2.
  destruct (isLocal clc p) eqn:Hl.
  - (* the local pod ends up primary and the second loop leaves it *)
    assert (Hp2 : roleOf p2 = Some MySQLClusterRolePrimary).
    { rewrite Hr2, Hr1, andb_false_r, andb_true_r. rewrite (Hb eq_refl).
      destruct (bool_decide (roleOf p = Some MySQLClusterRolePrimary)) eqn:Hp; cbn [negb].
      - apply bool_decide_eq_true in Hp. exact Hp.
      - reflexivity. }
    rewrite afterNonPrimaries_primary by exact Hp2.
    unfold expectedRole. rewrite Hl. exact Hp2.
  - rewrite andb_false_r in Hr2. rewrite andb_true_r in Hr1.
    assert (Hexp : expectedRole clc status p2 = expectedRole clc status p).
    { unfold expectedRole. rewrite Hl2, Hl1, Ha2, Ha1, Hl. reflexivity. }
    rewrite <- Hexp. apply roleOf_afterNonPrimaries.
    + exact Hm2.
    + rewrite Hr2, Hr1.
      destruct (bool_decide (roleOf p = Some MySQLClusterRolePrimary)) eqn:Hp.
      * destruct (inCluster status (podAddress clc p)); discriminate.
      * apply bool_decide_eq_false in Hp. exact Hp.
    + rewrite Hl2, Hl1. reflexivity.
Qed.

(** ** A completed pass, pod by pod *)

Lemma applyPlan_app plan1 plan2 ps :
  applyPlan (plan1 ++ plan2) ps = applyPlan plan2 (applyPlan plan1 ps).
Proof. apply fold_left_app. Qed.

Lemma applyPlan_planPrimaries clc status ps :
  List.NoDup (List.map podKey ps) ->
  applyPlan (planPrimaries clc status ps) ps = List.map (afterPrimaries clc status) ps.
Proof. intros Hnd. apply applyPlan_filter. exact Hnd. Qed.

Lemma applyPlan_planNonPrimaries clc status ps :
  List.NoDup (List.map podKey ps) ->
  applyPlan (planNonPrimaries clc status ps) ps
  = List.map (afterNonPrimaries clc status) ps.
Proof. intros Hnd. apply applyPlan_filter. exact Hnd. Qed.

Lemma applyPlan_planLocal clc b ps :
  List.NoDup (List.map podKey ps) ->
  applyPlan (planLocal clc b ps) ps = List.map (afterLocal clc b) ps.
Proof.
  intros Hnd. unfold planLocal, afterLocal.
  destruct b; cbn [negb andb].
  { simpl. symmetry. apply map_id. }
  destruct (lookupPod (localKey clc) ps) as [p3|] eqn:Hl.
  - apply lookupPod_Some in Hl as [Hin Hk].
    unfold applyPlan. cbn [fold_left fst snd]. unfold replacePod.
    apply map_ext_in. intros q Hq. rewrite Hk.
    destruct (hasKey (localKey clc) q) eqn:Hq'; [|reflexivity].
    apply hasKey_true in Hq'.
    rewrite (NoDup_keys_eq ps p3 q Hnd Hin Hq) by congruence. reflexivity.
  - simpl. rewrite <- (map_id ps) at 1. apply map_ext_in. intros q Hq.
    unfold lookupPod in Hl. rewrite (find_none _ _ Hl q Hq). reflexivity.
Qed.

Lemma applyPlan_passPlan clc status ps :
  List.NoDup (List.map podKey ps) ->
  applyPlan (passPlan clc status ps) ps
  = List.map (afterPass clc status (existsb (isLocal clc) (primariesOf clc ps))) ps.
Proof.
  intros Hnd. unfold passPlan. cbv zeta.
  rewrite !applyPlan_app.
  rewrite (applyPlan_planPrimaries clc status ps Hnd).
  assert (Hnd1 : List.NoDup (List.map podKey (List.map (afterPrimaries clc status) ps))).
  { rewrite map_keys_preserved; [exact Hnd|]. intros p. apply afterPrimaries_frame. }
  rewrite (applyPlan_planLocal clc _ _ Hnd1).
  rewrite applyPlan_planNonPrimaries.
  - rewrite !map_map. reflexivity.
  - rewrite map_keys_preserved; [exact Hnd1|]. intros p. apply afterLocal_frame.
Qed.

(** The flag the first loop computes says whether the local pod was
    labeled primary. *)
Lemma primaryLabeled_spec clc ps q :
  List.NoDup (List.map podKey ps) ->
  In q ps -> isMember clc q = true -> isLocal clc q = true ->
  existsb (isLocal clc) (primariesOf clc ps)
  = bool_decide (roleOf q = Some MySQLClusterRolePrimary).
Proof.
  intros Hnd Hin Hm Hl.
  destruct (bool_decide (roleOf q = Some MySQLClusterRolePrimary)) eqn:Hr.
  - apply existsb_exists. exists q. split; [|exact Hl].
    apply filter_In. split; [exact Hin|].
    rewrite selected_Primary. unfold isPrimaryMember. rewrite Hm, Hr. reflexivity.
  - apply not_true_is_false. intros Hex.
    apply existsb_exists in Hex as (q2 & Hq2 & Hl2).
    apply filter_In in Hq2 as [Hin2 Hsel]. rewrite selected_Primary in Hsel.
    unfold isPrimaryMember in Hsel. apply andb_true_iff in Hsel as [Hm2 Hr2].
    assert (q2 = q) as ->.
    { apply (NoDup_keys_eq ps); trivial.
      pose proof (isMember_hasKey _ _ Hm) as H1. rewrite Hl in H1.
      pose proof (isMember_hasKey _ _ Hm2) as H2. rewrite Hl2 in H2.
      apply hasKey_true in H1, H2. congruence. }
    congruence.
Qed.

Lemma endsWith_Done_None ending : endsWith ending (Done None) -> ending = Completed.
Proof.
  destruct ending; simpl; trivial.
  - intros (msg & H). discriminate.
  - congruence.
Qed.

(** A pass that returns nil has carried out its whole plan. *)
Lemma syncStatus_completed clc status w w' :
  WellKeyed w ->
  syncStatus clc status w = (Done None, w') ->
  Patched w (List.map (fun pv => callOf pv None) (passPlan clc status (pods w))) w'
  /\ pods w' = List.map (afterPass clc status
                          (existsb (isLocal clc) (primariesOf clc (pods w)))) (pods w)
  /\ WellKeyed w'
  /\ exists q, In q (pods w) /\ podKey q = localKey clc.
Proof.
  intros Hnd Hrun.
  apply syncStatus_run in Hrun as (calls & ending & HP & HR & Hend & Hfound).
  apply endsWith_Done_None in Hend. subst ending. specialize (Hfound eq_refl).
  pose proof (Patched_pods_completed _ _ _ _ HP HR) as Hpods.
  rewrite (applyPlan_passPlan _ _ _ Hnd) in Hpods.
  apply PlanRun_completed in HR as [-> _].
  split; [exact HP|]. split; [exact Hpods|]. split.
  - unfold WellKeyed. rewrite Hpods, map_keys_preserved; [exact Hnd|].
    intros p. apply afterPass_frame.
  - destruct Hfound as [Hex|[p1 Hl]].
    + apply existsb_exists in Hex as (q & Hq & Hl).
      apply filter_In in Hq as [Hin Hsel]. exists q. split; [exact Hin|].
      rewrite selected_Primary in Hsel. unfold isPrimaryMember in Hsel.
      apply andb_true_iff in Hsel as [Hm _].
      rewrite <- (isMember_hasKey _ _ Hm) in Hl. apply hasKey_true. exact Hl.
    + rewrite (applyPlan_planPrimaries _ _ _ Hnd) in Hl.
      apply lookupPod_Some in Hl as [Hin Hk].
      apply in_map_iff in Hin as (q & <- & Hq). exists q. split; [exact Hq|].
      rewrite <- Hk. symmetry. apply afterPrimaries_frame.
Qed.

(** A pass that returns nil leaves the pods converged. *)
Lemma syncStatus_converges clc status w w' :
  WellKeyed w -> LocalIsMember clc (pods w) ->
  syncStatus clc status w = (Done None, w') ->
  Converged clc status (pods w') /\ WellKeyed w'.
Proof.
  intros Hnd Hloc Hrun.
  destruct (syncStatus_completed _ _ _ _ Hnd Hrun) as (_ & Hpods & Hnd' & q0 & Hq0 & Hk0).
  split; [|exact Hnd']. rewrite Hpods.
  set (b := existsb (isLocal clc) (primariesOf clc (pods w))).
  split.
  - exists (afterPass clc status b q0).
    destruct (afterPass_frame clc status b q0) as (_ & -> & -> & _).
    split; [apply in_map; exact Hq0|].
    split; [apply hasKey_isLocal, hasKey_true; exact Hk0 | apply Hloc; assumption].
  - intros p Hin Hm. apply in_map_iff in Hin as (q & <- & Hq).
    destruct (afterPass_frame clc status b q) as (_ & Hm' & Hl' & Ha').
    rewrite Hm' in Hm.
    rewrite roleOf_afterPass.
    + unfold expectedRole. rewrite Hl', Ha'. reflexivity.
    + exact Hm.
    + intros Hl. apply primaryLabeled_spec; assumption.
Qed.


(** ** The plan of a pass names no pod twice *)

Lemma In_planFor decide l p v :
  In (p, v) (planFor decide l) <-> In p l /\ decide p = Some v.
Proof.
  unfold planFor. rewrite in_flat_map. split.
  - intros (q & Hq & Hin). destruct (decide q) as [v'|] eqn:Hd; [|contradiction].
    destruct Hin as [Heq|[]]. injection Heq as -> ->. auto.
  - intros [Hin Hd]. exists p. split; [exact Hin|]. rewrite Hd. left. reflexivity.
Qed.




Lemma podKey_isLocal clc p q : podKey p = podKey q -> isLocal clc p = isLocal clc q.
Proof. unfold podKey, isLocal. intros H. injection H as _ ->. reflexivity. Qed.

(** A pod the first two steps relabeled is left alone by the third. *)
Lemma decideNonPrimary_after_demotion clc status b q :
  isPrimaryMember clc q = true -> isLocal clc q = false ->
  decideNonPrimary clc status (afterLocal clc b (afterPrimaries clc status q)) = None.
Proof.
  intros Hpm Hl. unfold isPrimaryMember in Hpm. apply andb_true_iff in Hpm as [Hm Hr].
  set (p1 := afterPrimaries clc status q).
  destruct (afterPrimaries_frame clc status q) as (_ & Hm1 & Hl1 & Ha1). fold p1 in Hm1, Hl1, Ha1.
  destruct (afterLocal_frame clc b p1) as (_ & Hm2 & Hl2 & Ha2).
  rewrite Hm in Hm1. rewrite Hm1 in Hm2. rewrite Hl in Hl1. rewrite Hl1 in Hl2.
  rewrite (decideNonPrimary_member _ _ _ Hm2), Hl2, Ha2, Ha1.
  rewrite (roleOf_afterLocal _ _ _ Hm1), Hl1, andb_false_r.
  unfold p1. rewrite (roleOf_afterPrimaries _ _ _ Hm), Hr, Hl. cbn [negb andb].
  destruct (inCluster status (podAddress clc q)); reflexivity.
Qed.

Lemma selected_NonPrimary_after_promotion clc status q :
  hasKey (localKey clc) q = true ->
  selected (cluster.Namespace (localInstance clc))
    (NonPrimarySelector (cluster.ClusterName (localInstance clc)))
    (afterLocal clc false (afterPrimaries clc status q)) = false.
Proof.
  intros Hk. set (p1 := afterPrimaries clc status q).
  assert (Hk1 : hasKey (localKey clc) p1 = true).
  { apply hasKey_true. apply hasKey_true in Hk. rewrite <- Hk.
    apply afterPrimaries_frame. }
  unfold afterLocal. rewrite Hk1. cbn [negb andb].
  rewrite selected_NonPrimary, isMember_relabeled.
  destruct (isMember clc p1) eqn:Hm1; [|reflexivity].
  rewrite roleOf_relabeled by (right; eapply isMember_labels; eassumption).
  reflexivity.
Qed.




(** Every run of [syncHandler] is a run of a plan: the empty one when no
    snapshot is read, the plan of the pass otherwise. *)
Lemma syncHandler_run clc key w out w' :
  syncHandler clc key w = (out, w') ->
  exists plan calls ending,
    Patched w calls w'
    /\ PlanRun plan calls ending
    /\ endsWith ending out
    /\ (plan = []
        \/ exists status, store w !! key = Some (ObjClusterStatus status)
                          /\ plan = passPlan clc status (pods w)).
Proof.
  unfold syncHandler, bind, GetByKey. intros Hrun.
  destruct (getByKeyFault (storeFaults clc) key) as [e|].
  { injection Hrun as <- <-. exists [], [], Aborted.
    split; [apply Patched_refl|]. split; [constructor|]. split; [discriminate | auto]. }
  destruct (store w !! key) as [[status|t]|] eqn:Hs.
  - apply syncStatus_run in Hrun as (calls & ending & HP & HR & Hend & _).
    exists (passPlan clc status (pods w)), calls, ending. eauto 10.
  - injection Hrun as <- <-. exists [], [], Aborted.
    split; [apply Patched_refl|]. split; [constructor|]. split; [discriminate | auto].
  - injection Hrun as <- <-. exists [], [], Completed.
    split; [apply Patched_refl|]. split; [constructor|]. split; [reflexivity | auto].
Qed.

Lemma syncHandler_snapshot clc key status w w' :
  store w !! key = Some (ObjClusterStatus status) ->
  syncHandler clc key w = (Done None, w') ->
  syncStatus clc status w = (Done None, w').
Proof.
  unfold syncHandler, bind, GetByKey. intros Hs Hrun.
  destruct (getByKeyFault (storeFaults clc) key) as [e|]; [discriminate|].
  rewrite Hs in Hrun. exact Hrun.
Qed.

(** ** Converged pods *)


Lemma expectedRole_primary clc status p :
  expectedRole clc status p = Some MySQLClusterRolePrimary <-> isLocal clc p = true.
Proof.
  unfold expectedRole. destruct (isLocal clc p).
  - tauto.
  - destruct (inCluster status (podAddress clc p)); split; discriminate.
Qed.


Lemma filter_none {A} (f : A -> bool) (l : list A) :
  (forall x, In x l -> f x = false) -> List.filter f l = [].
Proof.
  induction l as [|a l IH]; intros H; [reflexivity|]. cbn [List.filter].
  rewrite (H a (or_introl eq_refl)). apply IH. intros x Hx. apply H. right. exact Hx.
Qed.

Lemma filter_hasKey ps q :
  List.NoDup (List.map podKey ps) -> In q ps ->
  List.filter (hasKey (podKey q)) ps = [q].
Proof.
  induction ps as [|p ps IH]; intros Hnd Hin; [contradiction|].
  inversion Hnd as [|? ? Hnotin Hnd']; subst. cbn [List.filter].
  destruct Hin as [->|Hin].
  - rewrite (proj2 (hasKey_true _ _) eq_refl). f_equal.
    apply filter_none. intros r Hr.
    apply hasKey_false. intros Hk. apply Hnotin. rewrite <- Hk.
    apply in_map. exact Hr.
  - assert (hasKey (podKey q) p = false) as ->.
    { apply hasKey_false. intros Hk. apply Hnotin. rewrite Hk. apply in_map. exact Hin. }
    apply IH; assumption.
Qed.

(** Among converged pods the one member labeled primary is the local
    instance's pod. *)
Lemma Converged_one_primary clc status ps :
  List.NoDup (List.map podKey ps) -> Converged clc status ps ->
  exists p, List.filter (isPrimaryMember clc) ps = [p]
            /\ isLocal clc p = true /\ podKey p = localKey clc.
Proof.
  intros Hnd [(q0 & Hq0 & Hl0 & Hm0) Hconv]. exists q0.
  assert (Hk0 : podKey q0 = localKey clc).
  { apply hasKey_true. rewrite (isMember_hasKey _ _ Hm0). exact Hl0. }
  split; [|auto].
  rewrite <- (filter_hasKey ps q0 Hnd Hq0). apply filter_ext_in. intros p Hp.
  unfold isPrimaryMember.
  destruct (hasKey (podKey q0) p) eqn:Hk.
  - apply hasKey_true in Hk.
    assert (p = q0) as -> by (apply (NoDup_keys_eq ps); trivial).
    rewrite Hm0. cbn [andb]. apply bool_decide_eq_true.
    rewrite (Hconv q0 Hq0 Hm0). apply expectedRole_primary. exact Hl0.
  - destruct (isMember clc p) eqn:Hm; [|reflexivity]. cbn [andb].
    apply bool_decide_eq_false. intros Hr. rewrite (Hconv p Hp Hm) in Hr.
    apply expectedRole_primary in Hr. rewrite <- (isMember_hasKey _ _ Hm) in Hr.
    rewrite <- Hk0 in Hr. congruence.
Qed.

(** ** The claims about a pass *)

(** C1. When the local instance's address is ONLINE in the snapshot, a pass
    of [syncHandler] that returns nil leaves exactly one member pod labeled
    primary, and that pod is the local instance's. (The pods are told apart
    by namespace and name, and the local instance's pod is a member of its
    cluster.) *)
Theorem syncHandler_leaves_local_instance_sole_primary :
  forall clc key status w w',
    WellKeyed w ->
    LocalIsMember clc (pods w) ->
    store w !! key = Some (ObjClusterStatus status) ->
    inCluster status
      (Sprintf_s_d (cluster.Name (localInstance clc)) (cluster.Port (localInstance clc)))
      = true ->
    syncHandler clc key w = (Done None, w') ->
    exists p,
      List.filter (isPrimaryMember clc) (pods w') = [p]
      /\ podKey p = localKey clc
      /\ isLocal clc p = true.
Proof.
  intros clc key status w w' Hnd Hloc Hs _ Hrun.
  apply (syncHandler_snapshot _ _ _ _ _ Hs) in Hrun.
  destruct (syncStatus_converges _ _ _ _ Hnd Hloc Hrun) as [Hconv Hnd'].
  destruct (Converged_one_primary _ _ _ Hnd' Hconv) as (p & Hf & Hl & Hk).
  exists p. auto.
Qed.




(** ** A failing mutation *)

Lemma PlanRun_failure plan calls ending c e :
  PlanRun plan calls ending ->
  In c calls -> patchResult c = Some e ->
  ending = Failed e
  /\ exists before, calls = before ++ [c]
                    /\ Forall (fun c' => patchResult c' = None) before.
Proof.
  induction 1; intros Hin Hres.
  - contradiction.
  - contradiction.
  - destruct Hin as [<-|[]]. simpl in Hres. injection Hres as ->.
    split; [reflexivity|]. exists []. split; [reflexivity | constructor].
  - destruct Hin as [<-|Hin]; [discriminate|].
    destruct (IHPlanRun Hin Hres) as (-> & before & -> & HF).
    split; [reflexivity|]. exists (callOf (p, v) None :: before).
    split; [reflexivity|]. constructor; [reflexivity | exact HF].
Qed.

Lemma replay_failed before c ps :
  patchResult c <> None -> replay (before ++ [c]) ps = replay before ps.
Proof.
  intros Hc. unfold replay. rewrite fold_left_app. simpl.
  unfold applyCall, succeeded. destruct (patchResult c); [reflexivity | congruence].
Qed.

Lemma processNextWorkItem_unfold clc key rest w :
  queue w = key :: rest ->
  processNextWorkItem clc w =
    match syncHandler clc key (withQueue w rest EvQueueGet) with
    | (Done None, w1) =>
        (Done (Some true),
         withQueue (withQueue w1 (queue w1) (EvQueueForget key)) (queue w1)
                   (EvQueueDone key))
    | (Done (Some _), w1) =>
        (Done (Some true),
         withQueue (withQueue w1 (queue w1) (EvQueueDone key)) (queue w1)
                   (EvQueueAddRateLimited key))
    | (Panic m, w1) => (Panic m, withQueue w1 (queue w1) (EvQueueDone key))
    end.
Proof.
  intros Hq. unfold processNextWorkItem, bind at 1, queueGet. rewrite Hq.
  unfold bind at 1, deferring, bind at 1.
  destruct (syncHandler clc key (withQueue w rest EvQueueGet)) as [[[e|]|m] w1];
    reflexivity.
Qed.

(** C5. When a [PatchPod] call fails during a pass, [syncHandler] returns its
    error (wrapped) at once: the failing call is the last of the pass, the
    calls before it succeeded and their effect on the pods stays, and the
    worker that ran the pass calls [Done] and [AddRateLimited] on the key and
    never [Forget]. *)
Theorem failed_PatchPod_ends_pass_and_requeues :
  forall clc key rest w out w1,
    queue w = key :: rest ->
    syncHandler clc key (withQueue w rest EvQueueGet) = (out, w1) ->
    exists calls,
      patchLog w1 = patchLog w ++ calls
      /\ forall c e,
           In c calls -> patchResult c = Some e ->
           (exists msg, out = Done (Some (ErrWrap e msg)))
           /\ (exists before,
                 calls = before ++ [c]
                 /\ Forall (fun c' => patchResult c' = None) before
                 /\ pods w1 = replay before (pods w))
           /\ (exists w2,
                 processNextWorkItem clc w = (Done (Some true), w2)
                 /\ trace w2 = trace w ++ [EvQueueGet; EvQueueDone key;
                                            EvQueueAddRateLimited key]
                 /\ ~ In (EvQueueForget key) [EvQueueGet; EvQueueDone key;
                                              EvQueueAddRateLimited key]
                 /\ patchLog w2 = patchLog w1
                 /\ pods w2 = pods w1).
Proof.
  intros clc key rest w out w1 Hq Hrun.
  pose proof Hrun as Hrun'.
  apply syncHandler_run in Hrun' as (plan & calls & ending & HP & HR & Hend & _).
  destruct HP as (Hlog & Hpods & _ & Hq1 & _ & Htr). simpl in Hlog, Hpods, Htr.
  exists calls. split; [exact Hlog|].
  intros c e Hin Hres.
  destruct (PlanRun_failure _ _ _ _ _ HR Hin Hres) as (-> & before & -> & HF).
  destruct Hend as (msg & ->).
  split; [eauto|]. split.
  - exists before. split; [reflexivity|]. split; [exact HF|].
    rewrite Hpods. apply replay_failed. congruence.
  - rewrite (processNextWorkItem_unfold _ _ _ _ Hq), Hrun.
    eexists. split; [reflexivity|]. simpl. rewrite Htr.
    split; [rewrite <- !app_assoc; reflexivity|].
    split; [|auto].
    intros [H|[H|[H|[]]]]; discriminate.
Qed.


(** ** The scenarios, run *)

Ltac well_keyed :=
  unfold WellKeyed; apply NoDup_ListNoDup; apply (bool_decide_unpack _);
  vm_compute; exact I.

Ltac local_is_member :=
  let p := fresh "p" in
  let Hin := fresh "Hin" in
  let Hk := fresh "Hk" in
  intros p Hin Hk; simpl in Hin;
  repeat (destruct Hin as [<-|Hin];
          [first [vm_compute; reflexivity | vm_compute in Hk; discriminate Hk]|]);
  contradiction.

Lemma syncHandler_leaves_local_instance_sole_primary_witness :
  exists p,
    List.filter (isPrimaryMember Scenario.clc) (pods Scenario.w1) = [p]
    /\ podKey p = localKey Scenario.clc
    /\ isLocal Scenario.clc p = true.
Proof.
  apply (syncHandler_leaves_local_instance_sole_primary
           Scenario.clc "mysql" Scenario.status Scenario.w0 Scenario.w1).
  - well_keyed.
  - local_is_member.
  - vm_compute. reflexivity.
  - vm_compute. reflexivity.
  - vm_compute. reflexivity.
Defined.

(** The scenario of the spec: with mysql-0 local, mysql-0 and mysql-1 ONLINE,
    mysql-2 gone, and mysql-1 labeled primary and mysql-2 secondary, one pass
    makes three calls and leaves mysql-0 primary, mysql-1 secondary and
    mysql-2 without a role. *)
Example pass_on_the_scenario :
  syncHandler Scenario.clc "mysql" Scenario.w0 = (Done None, Scenario.w1)
  /\ List.map (fun p => (corev1.Name p, roleOf p)) (pods Scenario.w1)
     = [("mysql-0", Some "primary"); ("mysql-1", Some "secondary"); ("mysql-2", None)]
  /\ List.map (fun c => (corev1.Name (patchOld c), roleOf (patchNew c), patchResult c))
       (patchLog Scenario.w1)
     = [("mysql-1", Some "secondary", None); ("mysql-0", Some "primary", None);
        ("mysql-2", None, None)].
Proof. repeat split; vm_compute; reflexivity. Qed.





Lemma stale_key_succeeds_without_retry_witness :
  syncHandler Scenario.clc "gone" Scenario.w0Stale = (Done None, Scenario.w0Stale)
  /\ exists w',
       processNextWorkItem Scenario.clc Scenario.w0Stale = (Done (Some true), w')
       /\ trace w' = trace Scenario.w0Stale
                     ++ [EvQueueGet; EvQueueForget "gone"; EvQueueDone "gone"]
       /\ ~ In (EvQueueAddRateLimited "gone")
              [EvQueueGet; EvQueueForget "gone"; EvQueueDone "gone"]
       /\ patchLog w' = patchLog Scenario.w0Stale
       /\ pods w' = pods Scenario.w0Stale
       /\ store w' = store Scenario.w0Stale
       /\ queue w' = [].
Proof.
  apply (stale_key_succeeds_without_retry Scenario.clc "gone" [] Scenario.w0Stale).
  - reflexivity.
  - reflexivity.
  - reflexivity.
Defined.

Lemma failed_PatchPod_ends_pass_and_requeues_witness :
  (exists msg,
     fst (syncHandler Scenario.clcSecondPatchFails "mysql" Scenario.w0Dequeued)
     = Done (Some (ErrWrap Scenario.conflict msg)))
  /\ exists w2,
       processNextWorkItem Scenario.clcSecondPatchFails Scenario.w0 = (Done (Some true), w2)
       /\ trace w2 = trace Scenario.w0
                     ++ [EvQueueGet; EvQueueDone "mysql"; EvQueueAddRateLimited "mysql"].
Proof.
  destruct (failed_PatchPod_ends_pass_and_requeues
              Scenario.clcSecondPatchFails "mysql" [] Scenario.w0
              (fst (syncHandler Scenario.clcSecondPatchFails "mysql" Scenario.w0Dequeued))
              (snd (syncHandler Scenario.clcSecondPatchFails "mysql" Scenario.w0Dequeued))
              eq_refl (surjective_pairing _))
    as (calls & Hlog & H).
  vm_compute in Hlog. subst calls.
  destruct (H _ _ (or_intror (or_introl eq_refl)) eq_refl) as (Hout & _ & w2 & Hw2 & Htr & _).
  split; [exact Hout|]. exists w2. split; [exact Hw2 | exact Htr].
Defined.

Lemma updateClusterRoleLabel_nil_labels_witness :
  updateClusterRoleLabel Scenario.clc Scenario.unlabeled MySQLClusterRolePrimary Scenario.w0
  = (Panic "assignment to entry in nil map", Scenario.w0).
Proof.
  apply (proj1 (updateClusterRoleLabel_nil_labels
                  Scenario.clc Scenario.unlabeled MySQLClusterRolePrimary Scenario.w0
                  eq_refl)).
  discriminate.
Defined.

Lemma EnqueueClusterStatus_stores_then_enqueues_witness :
  exists w',
    EnqueueClusterStatus Scenario.clc (ObjClusterStatus Scenario.status) Scenario.w0Stale
    = (Done None, w')
    /\ trace w' = trace Scenario.w0Stale ++ [EvStoreAdd "mysql"; EvQueueAdd "mysql"]
    /\ store w' = <["mysql" := ObjClusterStatus Scenario.status]> (store Scenario.w0Stale)
    /\ store w' !! "mysql" = Some (ObjClusterStatus Scenario.status)
    /\ In "mysql" (queue w')
    /\ pods w' = pods Scenario.w0Stale /\ patchLog w' = patchLog Scenario.w0Stale.
Proof.
  apply (proj1 (proj2 (proj2 (EnqueueClusterStatus_stores_then_enqueues
                               Scenario.clc Scenario.w0Stale) Scenario.status))).
  reflexivity.
Defined.

Lemma inCluster_looks_up_name_and_local_port_witness :
  inCluster (Scenario.snapshot [("mysql-2.mysql:3306", Scenario.online)])
    (podAddress Scenario.clc (nth 2 Scenario.somePods Scenario.unlabeled)) = false
  /\ Sprintf_s_d "mysql-2" 3307
     <> podAddress Scenario.clc (nth 2 Scenario.somePods Scenario.unlabeled).
Proof.
  destruct (inCluster_looks_up_name_and_local_port
              Scenario.clc (Scenario.snapshot [("mysql-2.mysql:3306", Scenario.online)])
              (nth 2 Scenario.somePods Scenario.unlabeled))
    as (_ & _ & _ & Hother & Hport).
  split.
  - apply (Hother "mysql-2.mysql:3306" Scenario.online).
    + vm_compute. discriminate.
    + vm_compute. reflexivity.
  - apply Hport. discriminate.
Defined.


(** ** What a pass plans *)

Lemma afterPrimaries_local clc status q :
  isLocal clc q = true -> afterPrimaries clc status q = q.
Proof.
  intros Hl. unfold afterPrimaries, relabelBy, decidePrimary. rewrite Hl.
  destruct (selected _ _ q); reflexivity.
Qed.

Lemma afterPrimaries_not_primary clc status q :
  isPrimaryMember clc q = false -> afterPrimaries clc status q = q.
Proof.
  intros H. unfold afterPrimaries. rewrite selected_Primary, H. reflexivity.
Qed.

(** A pod the third step relabels is still as it was when the pass began. *)
Lemma planned_nonPrimary_is_original clc status ps q v :
  In q ps ->
  let p := afterLocal clc (existsb (isLocal clc) (primariesOf clc ps))
             (afterPrimaries clc status q) in
  selected (cluster.Namespace (localInstance clc))
    (NonPrimarySelector (cluster.ClusterName (localInstance clc))) p = true ->
  decideNonPrimary clc status p = Some v ->
  p = q.
Proof.
  intros Hq p Hsel Hd. subst p.
  destruct (isPrimaryMember clc q) eqn:Hpm.
  - destruct (isLocal clc q) eqn:Hl.
    + rewrite (afterPrimaries_local _ _ _ Hl) in *.
      assert (Hb : existsb (isLocal clc) (primariesOf clc ps) = true).
      { apply existsb_exists. exists q. split; [|exact Hl].
        apply filter_In. split; [exact Hq|]. rewrite selected_Primary. exact Hpm. }
      rewrite Hb. reflexivity.
    + rewrite decideNonPrimary_after_demotion in Hd by assumption. discriminate.
  - rewrite (afterPrimaries_not_primary _ _ _ Hpm) in *.
    unfold afterLocal in *.
    destruct (negb (existsb (isLocal clc) (primariesOf clc ps))) eqn:Hb; [|reflexivity].
    destruct (hasKey (localKey clc) q) eqn:Hk; [|reflexivity].
    exfalso. cbn [andb] in Hsel.
    pose proof (selected_NonPrimary_after_promotion clc status q Hk) as Hno.
    rewrite (afterPrimaries_not_primary _ _ _ Hpm) in Hno.
    unfold afterLocal in Hno. rewrite Hk in Hno. cbn [negb andb] in Hno. congruence.
Qed.

(** Every pod in the plan of a pass is a pod as the pass found it, and is
    planned by one of the three steps. *)
Lemma passPlan_In clc status ps p v :
  List.NoDup (List.map podKey ps) ->
  In (p, v) (passPlan clc status ps) ->
  In p ps
  /\ ((isPrimaryMember clc p = true /\ decidePrimary clc status p = Some v)
      \/ (podKey p = localKey clc /\ v = MySQLClusterRolePrimary
          /\ existsb (isLocal clc) (primariesOf clc ps) = false)
      \/ (isMember clc p = true /\ roleOf p <> Some MySQLClusterRolePrimary
          /\ decideNonPrimary clc status p = Some v)).
Proof.
  intros Hnd. unfold passPlan. cbv zeta.
  set (b := existsb (isLocal clc) (primariesOf clc ps)).
  rewrite (applyPlan_planPrimaries clc status ps Hnd).
  set (ps1 := List.map (afterPrimaries clc status) ps).
  assert (Hnd1 : List.NoDup (List.map podKey ps1)).
  { unfold ps1. rewrite map_keys_preserved; [exact Hnd|].
    intros q. apply afterPrimaries_frame. }
  rewrite (applyPlan_planLocal clc b ps1 Hnd1).
  intros Hin. apply in_app_or in Hin as [Hin|Hin]; [|apply in_app_or in Hin as [Hin|Hin]].
  - apply In_planFor in Hin as [Hin Hd].
    apply filter_In in Hin as [Hin Hsel]. rewrite selected_Primary in Hsel. auto.
  - unfold planLocal in Hin. destruct b eqn:Hb; [contradiction|].
    destruct (lookupPod (localKey clc) ps1) as [p3|] eqn:Hl; [|contradiction].
    destruct Hin as [Heq|[]]. injection Heq as <- <-.
    apply lookupPod_Some in Hl as [Hin Hk].
    apply in_map_iff in Hin as (q & Hq' & Hq).
    assert (Hkq : podKey q = localKey clc).
    { rewrite <- Hk, <- Hq'. symmetry. apply afterPrimaries_frame. }
    assert (Hlq : isLocal clc q = true) by (apply hasKey_isLocal, hasKey_true; exact Hkq).
    rewrite (afterPrimaries_local _ _ _ Hlq) in Hq'. subst p3.
    split; [exact Hq|]. right. left. auto.
  - apply In_planFor in Hin as [Hin Hd].
    apply filter_In in Hin as [Hin Hsel].
    unfold ps1 in Hin. rewrite map_map in Hin.
    apply in_map_iff in Hin as (q & Hq' & Hq).
    assert (p = q).
    { subst p. apply (planned_nonPrimary_is_original clc status ps q v Hq).
      - exact Hsel.
      - exact Hd. }
    subst q. split; [exact Hq|]. right. right.
    rewrite selected_NonPrimary in Hsel. apply andb_true_iff in Hsel as [Hm Hr].
    apply negb_true_iff, bool_decide_eq_false in Hr. auto.
Qed.

Lemma PlanRun_In plan calls ending c :
  PlanRun plan calls ending -> In c calls ->
  exists p v, In (p, v) plan /\ patchOld c = p /\ patchNew c = relabeled p v.
Proof.
  induction 1; intros Hin.
  - contradiction.
  - contradiction.
  - destruct Hin as [<-|[]]. exists p, v. split; [left; reflexivity | auto].
  - destruct Hin as [<-|Hin].
    + exists p, v. split; [left; reflexivity | auto].
    + destruct (IHPlanRun Hin) as (p' & v' & Hp & Ho & Hn).
      exists p', v'. split; [right; exact Hp | auto].
Qed.

Lemma decidePrimary_value clc status p v :
  decidePrimary clc status p = Some v -> v = "" \/ v = MySQLClusterRoleSecondary.
Proof.
  unfold decidePrimary. destruct (isLocal clc p); [discriminate|].
  destruct (negb _); intros H; injection H as <-; auto.
Qed.

Lemma decideNonPrimary_value clc status p v :
  isMember clc p = true ->
  decideNonPrimary clc status p = Some v ->
  (v = "" /\ is_Some (roleOf p))
  \/ (v = MySQLClusterRoleSecondary /\ roleOf p <> Some MySQLClusterRoleSecondary
      /\ isLocal clc p = false /\ inCluster status (podAddress clc p) = true).
Proof.
  intros Hm. rewrite (decideNonPrimary_member _ _ _ Hm).
  destruct (inCluster status (podAddress clc p)); cbn [negb].
  - destruct (isLocal clc p); cbn [negb andb]; [discriminate|].
    destruct (bool_decide (roleOf p = Some MySQLClusterRoleSecondary)) eqn:Hs;
      cbn [negb]; [discriminate|].
    apply bool_decide_eq_false in Hs. intros H. injection H as <-. auto.
  - destruct (bool_decide (is_Some (roleOf p))) eqn:Hs; [|discriminate].
    apply bool_decide_eq_true in Hs. intros H. injection H as <-. auto.
Qed.


Lemma isPrimaryMember_member clc p :
  isPrimaryMember clc p = true ->
  isMember clc p = true /\ roleOf p = Some MySQLClusterRolePrimary.
Proof.
  unfold isPrimaryMember. intros H. apply andb_true_iff in H as [Hm Hr].
  apply bool_decide_eq_true in Hr. auto.
Qed.

(** What every call of a pass is: the relabeling, to a role value, of a pod
    of the namespace as the pass found it. *)
Lemma syncHandler_calls clc key w out w' :
  WellKeyed w ->
  syncHandler clc key w = (out, w') ->
  exists calls,
    Patched w calls w'
    /\ forall c, In c calls ->
         In (patchOld c) (pods w)
         /\ exists v,
              patchNew c = relabeled (patchOld c) v
              /\ isRoleValue v
              /\ (isMember clc (patchOld c) = true \/ podKey (patchOld c) = localKey clc)
              /\ (LocalIsMember clc (pods w) -> 
                  isMember clc (patchOld c) = true /\ roleOf (patchOld c) <> roleFor v).
Proof.
  intros Hnd Hrun.
  apply syncHandler_run in Hrun as (plan & calls & ending & HP & HR & _ & Hplan).
  exists calls. split; [exact HP|].
  intros c Hc. destruct (PlanRun_In _ _ _ _ HR Hc) as (p & v & Hin & -> & ->).
  destruct Hplan as [->|(status & _ & ->)]; [contradiction|].
  apply (passPlan_In _ _ _ _ _ Hnd) in Hin as [Hp Hcase].
  split; [exact Hp|]. exists v. split; [reflexivity|].
  destruct Hcase as [(Hpm & Hd)|[(Hk & -> & Hb)|(Hm & Hr & Hd)]].
  - apply isPrimaryMember_member in Hpm as [Hm Hr].
    apply decidePrimary_value in Hd.
    split; [unfold isRoleValue; tauto|]. split; [auto|]. intros _. split; [exact Hm|].
    rewrite Hr. unfold roleFor. destruct Hd as [->| ->]; discriminate.
  - split; [unfold isRoleValue; tauto|]. split; [auto|]. intros Hloc.
    pose proof (Hloc p Hp Hk) as Hm. split; [exact Hm|].
    unfold roleFor. cbn. intros Hr.
    assert (Hex : existsb (isLocal clc) (primariesOf clc (pods w)) = true); [|congruence].
    apply existsb_exists. exists p. split.
    + apply filter_In. split; [exact Hp|]. rewrite selected_Primary.
      unfold isPrimaryMember. rewrite Hm. cbn [andb]. apply bool_decide_eq_true. exact Hr.
    + apply hasKey_isLocal, hasKey_true. exact Hk.
  - destruct (decideNonPrimary_value _ _ _ _ Hm Hd) as [(-> & Hs)|(-> & Hs & _)].
    + split; [unfold isRoleValue; tauto|]. split; [auto|]. intros _. split; [exact Hm|].
      destruct Hs as [r Hs]. rewrite Hs. unfold roleFor. cbn. discriminate.
    + split; [unfold isRoleValue; tauto|]. split; [auto|]. intros _. split; [exact Hm|].
      exact Hs.
Qed.


(** X3. No call of a pass is idle: every [PatchPod] call of [syncHandler]
    submits a pod whose role label differs from the one the pod bore when the
    pass began. *)
Theorem syncHandler_every_call_changes_the_role :
  forall clc key w out w',
    WellKeyed w ->
    LocalIsMember clc (pods w) ->
    syncHandler clc key w = (out, w') ->
    exists calls,
      patchLog w' = patchLog w ++ calls
      /\ forall c, In c calls ->
           In (patchOld c) (pods w)
           /\ roleOf (patchNew c) <> roleOf (patchOld c).
Proof.
  intros clc key w out w' Hnd Hloc Hrun.
  destruct (syncHandler_calls _ _ _ _ _ Hnd Hrun) as (calls & HP & Hcalls).
  exists calls. split; [apply HP|].
  intros c Hc. destruct (Hcalls c Hc) as (Hin & v & Hnew & _ & _ & Hch).
  destruct (Hch Hloc) as [Hm Hne].
  split; [exact Hin|]. rewrite Hnew.
  rewrite roleOf_relabeled by (right; eapply isMember_labels; eassumption).
  fold (roleFor v). congruence.
Qed.

(** ** What a pass keeps *)

Lemma SameButRole_refl p : SameButRole p p.
Proof. unfold SameButRole. tauto. Qed.

Lemma SameButRole_podKey p q : SameButRole p q -> podKey q = podKey p.
Proof. unfold SameButRole, podKey. intros (-> & -> & _). reflexivity. Qed.

Lemma Kept_refl clc ps : Forall2 (Kept clc) ps ps.
Proof.
  induction ps; constructor; [|assumption].
  split; [apply SameButRole_refl | reflexivity].
Qed.

Lemma replacePod_Kept clc ps0 old new v :
  List.NoDup (List.map podKey ps0) ->
  In old ps0 ->
  new = relabeled old v ->
  isMember clc old = true \/ podKey old = localKey clc ->
  forall l0 ps,
    (forall q, In q l0 -> In q ps0) ->
    Forall2 (Kept clc) l0 ps ->
    Forall2 (Kept clc) l0 (replacePod (podKey old) new ps).
Proof.
  intros Hnd Hin Hnew Hwho l0 ps Hall HK. unfold replacePod.
  induction HK as [|q p' l0 ps [Hsame Hun] HK IH]; cbn [List.map]; constructor.
  - destruct (hasKey (podKey old) p') eqn:Hk; [|split; assumption].
    apply hasKey_true in Hk.
    assert (q = old) as ->.
    { apply (NoDup_keys_eq ps0); trivial.
      - apply Hall. left. reflexivity.
      - rewrite <- Hk. symmetry. apply SameButRole_podKey. exact Hsame. }
    rewrite Hnew. split; [apply relabeled_SameButRole|].
    intros Hnm Hnk. exfalso. destruct Hwho; congruence.
  - apply IH. intros r Hr. apply Hall. right. exact Hr.
Qed.

Lemma replay_Kept clc ps0 calls :
  List.NoDup (List.map podKey ps0) ->
  (forall c, In c calls ->
     In (patchOld c) ps0
     /\ (exists v, patchNew c = relabeled (patchOld c) v)
     /\ (isMember clc (patchOld c) = true \/ podKey (patchOld c) = localKey clc)) ->
  forall ps, Forall2 (Kept clc) ps0 ps -> Forall2 (Kept clc) ps0 (replay calls ps).
Proof.
  intros Hnd. unfold replay.
  induction calls as [|c calls IH]; intros Hcalls ps HK; [exact HK|].
  cbn [fold_left]. apply IH; [intros c' Hc'; apply Hcalls; right; exact Hc'|].
  destruct (Hcalls c (or_introl eq_refl)) as (Hin & (v & Hnew) & Hwho).
  unfold applyCall. destruct (succeeded c); [|exact HK].
  apply (replacePod_Kept clc ps0 (patchOld c) (patchNew c) v); auto.
Qed.

Lemma syncHandler_Kept clc key w out w' :
  WellKeyed w ->
  syncHandler clc key w = (out, w') ->
  Forall2 (Kept clc) (pods w) (pods w')
  /\ store w' = store w
  /\ queue w' = queue w
  /\ shuttingDown w' = shuttingDown w
  /\ trace w' = trace w.
Proof.
  intros Hnd Hrun.
  destruct (syncHandler_calls _ _ _ _ _ Hnd Hrun) as (calls & HP & Hcalls).
  destruct HP as (_ & Hpods & Hs & Hq & Hd & Ht).
  split; [|auto]. rewrite Hpods.
  apply (replay_Kept clc (pods w) calls Hnd); [|apply Kept_refl].
  intros c Hc. destruct (Hcalls c Hc) as (Hin & v & Hnew & _ & Hwho & _).
  split; [exact Hin|]. split; [eauto | exact Hwho].
Qed.


(** ** Invariants of a pass and retries *)




Lemma Kept_In clc ps ps' p' :
  Forall2 (Kept clc) ps ps' -> In p' ps' -> exists p, In p ps /\ Kept clc p p'.
Proof.
  induction 1 as [|q q' ps ps' HK _ IH]; intros Hin; [contradiction|].
  destruct Hin as [<-|Hin].
  - exists q. split; [left; reflexivity | exact HK].
  - destruct (IH Hin) as (p & Hp & HKp). exists p. split; [right; exact Hp | exact HKp].
Qed.



(** X1. After a pass of [syncHandler] that returns nil, every member other
    than the local instance's pod whose address is ONLINE in the topology is
    labeled secondary. *)
Theorem syncHandler_labels_online_members_secondary :
  forall clc key status w w',
    WellKeyed w ->
    LocalIsMember clc (pods w) ->
    store w !! key = Some (ObjClusterStatus status) ->
    syncHandler clc key w = (Done None, w') ->
    forall p,
      In p (pods w') -> isMember clc p = true -> isLocal clc p = false ->
      inCluster status (podAddress clc p) = true ->
      roleOf p = Some "secondary".
Proof.
  intros clc key status w w' Hnd Hloc Hs Hrun p Hp Hm Hl Hin.
  apply (syncHandler_snapshot _ _ _ _ _ Hs) in Hrun.
  destruct (syncStatus_converges _ _ _ _ Hnd Hloc Hrun) as [[_ Hconv] _].
  rewrite (Hconv p Hp Hm). unfold expectedRole. rewrite Hl, Hin. reflexivity.
Qed.


(** ** Panics *)

Lemma updateClusterRoleLabel_panic clc p v w m w' :
  updateClusterRoleLabel clc p v w = (Panic m, w') ->
  m = "assignment to entry in nil map" /\ w' = w /\ corev1.Labels p = None /\ v <> "".
Proof.
  intros H.
  destruct (updateClusterRoleLabel_step clc p v w)
    as [(Hnil & Hv & m' & Hu) | (_ & r & w1 & Hu & _)]; rewrite Hu in H.
  - rewrite updateClusterRoleLabel_unfold in Hu.
    rewrite (bool_decide_eq_false_2 _ Hv), (bool_decide_eq_true_2 _ Hnil) in Hu.
    cbn in Hu. injection Hu as <-. injection H as <- <-. auto.
  - discriminate.
Qed.

Lemma relabelPrimaries_panic clc status l :
  forall b w m w',
    relabelPrimaries clc status l b w = (Panic m, w') ->
    exists p, In p l /\ corev1.Labels p = None.
Proof.
  induction l as [|pod rest IH]; intros b w m w' Hrun; [discriminate|].
  cbn [relabelPrimaries] in Hrun.
  destruct (bool_decide (corev1.Name pod = cluster.Name (localInstance clc))).
  - destruct (IH _ _ _ _ Hrun) as (p & Hp & Hl). exists p. split; [right; exact Hp | exact Hl].
  - unfold bind in Hrun.
    destruct (updateClusterRoleLabel clc pod _ w) as [[[e|]|m1] w1] eqn:Hu.
    + discriminate.
    + destruct (IH _ _ _ _ Hrun) as (p & Hp & Hl).
      exists p. split; [right; exact Hp | exact Hl].
    + apply updateClusterRoleLabel_panic in Hu as (_ & _ & Hl & _).
      exists pod. split; [left; reflexivity | exact Hl].
Qed.

Lemma relabelNonPrimaries_panic clc status cn l :
  forall w m w',
    relabelNonPrimaries clc status cn l w = (Panic m, w') ->
    exists p, In p l /\ corev1.Labels p = None.
Proof.
  induction l as [|pod rest IH]; intros w m w' Hrun; [discriminate|].
  cbn [relabelNonPrimaries] in Hrun.
  assert (Hstep : forall v msg,
    bind (updateClusterRoleLabel clc pod v)
      (fun err => match err with
                  | Some e => ret (Some (ErrWrap e msg))
                  | None => relabelNonPrimaries clc status cn rest
                  end) w = (Panic m, w') ->
    exists p, In p (pod :: rest) /\ corev1.Labels p = None).
  { intros v msg Hb. unfold bind in Hb.
    destruct (updateClusterRoleLabel clc pod v w) as [[[e|]|m1] w1] eqn:Hu.
    - discriminate.
    - destruct (IH _ _ _ Hb) as (p & Hp & Hl).
      exists p. split; [right; exact Hp | exact Hl].
    - apply updateClusterRoleLabel_panic in Hu as (_ & _ & Hl & _).
      exists pod. split; [left; reflexivity | exact Hl]. }
  assert (Hrest : relabelNonPrimaries clc status cn rest w = (Panic m, w') ->
                  exists p, In p (pod :: rest) /\ corev1.Labels p = None).
  { intros Hb. destruct (IH _ _ _ Hb) as (p & Hp & Hl).
    exists p. split; [right; exact Hp | exact Hl]. }
  destruct (negb (inCluster status (podAddress clc pod))).
  - destruct (labels.Matches _ _); [eapply Hstep; exact Hrun | apply Hrest; exact Hrun].
  - destruct (_ && _); [eapply Hstep; exact Hrun | apply Hrest; exact Hrun].
Qed.

Lemma labelLocalPrimary_panic clc b w m w' :
  labelLocalPrimary clc b w = (Panic m, w') ->
  m = "assignment to entry in nil map" /\ w' = w
  /\ exists p, lookupPod (localKey clc) (pods w) = Some p /\ corev1.Labels p = None.
Proof.
  unfold labelLocalPrimary. intros Hrun.
  destruct b; simpl in Hrun; [discriminate|].
  unfold bind, getPod in Hrun. fold (localKey clc) in Hrun.
  destruct (getFault (podLister clc) _ _) as [e|]; [discriminate|].
  destruct (lookupPod (localKey clc) (pods w)) as [p|]; [|discriminate].
  destruct (updateClusterRoleLabel clc p MySQLClusterRolePrimary w) as [[[e|]|m1] w1] eqn:Hu;
    try discriminate.
  cbn in Hrun. injection Hrun as <- <-.
  apply updateClusterRoleLabel_panic in Hu as (-> & -> & Hl & _). eauto.
Qed.

Lemma selected_labels ns cn sel p :
  selected ns (labels.Equals MySQLClusterLabel cn :: sel) p = true ->
  corev1.Labels p <> None.
Proof.
  unfold selected, labels.Matches. cbn [forallb labels.matchesRequirement].
  intros H Hnil. rewrite Hnil in H. cbn in H. rewrite lookup_empty in H.
  destruct (bool_decide (None = Some cn)) eqn:Hc.
  - apply bool_decide_eq_true in Hc. discriminate Hc.
  - cbn in H. rewrite andb_false_r in H. discriminate.
Qed.

(** A pass panics only on the local instance's pod, when its label map is
    nil. *)
Lemma syncStatus_panic clc status w m w' :
  syncStatus clc status w = (Panic m, w') ->
  m = "assignment to entry in nil map"
  /\ exists p, lookupPod (localKey clc) (pods w') = Some p /\ corev1.Labels p = None.
Proof.
  unfold syncStatus. cbv zeta. unfold bind at 1. unfold listPods at 1.
  intros Hrun.
  destruct (listFault (podLister clc) _ _) as [e|]; [discriminate|].
  unfold bind at 1 in Hrun.
  destruct (relabelPrimaries clc status _ false w) as [[[b [e|]]|m1] w1] eqn:H1.
  - discriminate.
  - unfold bind at 1 in Hrun.
    destruct (labelLocalPrimary clc b w1) as [[[e|]|m2] w2] eqn:H2.
    + discriminate.
    + unfold bind, listPods in Hrun.
      destruct (listFault (podLister clc) _ _) as [e|]; [discriminate|].
      apply relabelNonPrimaries_panic in Hrun as (p & Hp & Hl).
      apply filter_In in Hp as [_ Hsel].
      exfalso. exact (selected_labels _ _ _ _ Hsel Hl).
    + injection Hrun as <- <-.
      apply labelLocalPrimary_panic in H2 as (-> & -> & Hp). auto.
  - apply relabelPrimaries_panic in H1 as (p & Hp & Hl).
    apply filter_In in Hp as [_ Hsel].
    exfalso. exact (selected_labels _ _ _ _ Hsel Hl).
Qed.

Lemma syncHandler_panic clc key w m w' :
  WellKeyed w -> (forall t, store w !! key <> Some (ObjOther t)) ->
  syncHandler clc key w = (Panic m, w') ->
  m = "assignment to entry in nil map"
  /\ exists p, In p (pods w) /\ podKey p = localKey clc /\ corev1.Labels p = None.
Proof.
  intros Hnd Hst Hrun.
  destruct (syncHandler_Kept _ _ _ _ _ Hnd Hrun) as (HK & _).
  unfold syncHandler, bind, GetByKey in Hrun.
  destruct (getByKeyFault (storeFaults clc) key) as [e|]; [discriminate|].
  destruct (store w !! key) as [[status|t]|] eqn:Hs.
  - apply syncStatus_panic in Hrun as (-> & p' & Hl & Hnil).
    split; [reflexivity|].
    apply lookupPod_Some in Hl as [Hin Hk].
    destruct (Kept_In _ _ _ _ HK Hin) as (p & Hp & [Hsame _]).
    exists p. split; [exact Hp|]. split.
    + rewrite <- Hk. symmetry. apply SameButRole_podKey. exact Hsame.
    + apply Hsame. exact Hnil.
  - exfalso. exact (Hst t eq_refl).
  - discriminate.
Qed.

Lemma StoreWellTyped_no_other w key t :
  StoreWellTyped w -> store w !! key <> Some (ObjOther t).
Proof. intros Hst Hs. destruct (Hst _ _ Hs) as (status & Heq & _). discriminate. Qed.

(** X6. Over a store that holds cluster statuses only, [syncHandler] does not
    panic as long as the local instance's pod, if it is there, has a label
    map: the one panic of a pass is the assignment of the primary role into
    the nil label map of the local instance's pod, and the type assertion on
    the stored object never fails. *)
Theorem syncHandler_panics_only_on_unlabeled_local_pod :
  forall clc key w out w',
    WellKeyed w ->
    StoreWellTyped w ->
    syncHandler clc key w = (out, w') ->
    ((forall p, In p (pods w) -> podKey p = localKey clc -> corev1.Labels p <> None) ->
     exists err, out = Done err)
    /\ (forall m, out = Panic m ->
        m = "assignment to entry in nil map"
        /\ exists p, In p (pods w) /\ podKey p = localKey clc
                     /\ corev1.Labels p = None).
Proof.
  intros clc key w out w' Hnd Hst Hrun. split.
  - intros Hlabels. destruct out as [err|m]; [eauto|].
    assert (Hno : forall t, store w !! key <> Some (ObjOther t))
      by (intros t; apply StoreWellTyped_no_other; exact Hst).
    destruct (syncHandler_panic _ _ _ _ _ Hnd Hno Hrun) as (_ & p & Hp & Hk & Hnil).
    exfalso. exact (Hlabels p Hp Hk Hnil).
  - intros m ->. apply (syncHandler_panic clc key w m w' Hnd); [|exact Hrun].
    intros t. apply StoreWellTyped_no_other. exact Hst.
Qed.

(** ** The worker *)

Lemma processNextWorkItem_empty clc w :
  queue w = [] ->
  processNextWorkItem clc w
  = (Done (if shuttingDown w then Some false else None), w).
Proof.
  intros Hq. unfold processNextWorkItem, bind, queueGet. rewrite Hq.
  destruct (shuttingDown w); reflexivity.
Qed.

Lemma syncHandler_Patched clc key w out w' :
  syncHandler clc key w = (out, w') -> exists calls, Patched w calls w'.
Proof.
  intros Hrun. apply syncHandler_run in Hrun as (plan & calls & ending & HP & _). eauto.
Qed.

(** X7. When the local instance's pod does not exist, no pass over a snapshot
    returns nil or panics: [syncHandler] returns an error, and the worker
    calls [Done] and [AddRateLimited] on the key, never [Forget]. *)
Theorem missing_local_pod_fails_the_pass :
  forall clc key status rest w,
    WellKeyed w ->
    store w !! key = Some (ObjClusterStatus status) ->
    (forall p, In p (pods w) -> podKey p <> localKey clc) ->
    queue w = key :: rest ->
    exists e w1 w2,
      syncHandler clc key (withQueue w rest EvQueueGet) = (Done (Some e), w1)
      /\ processNextWorkItem clc w = (Done (Some true), w2)
      /\ trace w2 = trace w ++ [EvQueueGet; EvQueueDone key; EvQueueAddRateLimited key]
      /\ pods w2 = pods w1
      /\ patchLog w2 = patchLog w1.
Proof.
  intros clc key status rest w Hnd Hs Hno Hq.
  set (w0 := withQueue w rest EvQueueGet).
  assert (Hnd0 : WellKeyed w0) by exact Hnd.
  assert (Hs0 : store w0 !! key = Some (ObjClusterStatus status)) by exact Hs.
  destruct (syncHandler clc key w0) as [out w1] eqn:Hrun.
  assert (Hout : exists e, out = Done (Some e)).
  { destruct out as [[e|]|m].
    - eauto.
    - exfalso. apply (syncHandler_snapshot _ _ _ _ _ Hs0) in Hrun.
      destruct (syncStatus_completed _ _ _ _ Hnd0 Hrun) as (_ & _ & _ & q & Hq0 & Hk).
      exact (Hno q Hq0 Hk).
    - exfalso.
      assert (Hty : forall t, store w0 !! key <> Some (ObjOther t))
        by (intros t; rewrite Hs0; discriminate).
      destruct (syncHandler_panic _ _ _ _ _ Hnd0 Hty Hrun) as (_ & p & Hp & Hk & _).
      exact (Hno p Hp Hk). }
  destruct Hout as (e & ->).
  destruct (syncHandler_Patched _ _ _ _ _ Hrun) as (calls & _ & _ & _ & _ & _ & Htr).
  exists e, w1. rewrite (processNextWorkItem_unfold _ _ _ _ Hq). fold w0. rewrite Hrun.
  eexists. split; [reflexivity|]. split; [reflexivity|]. cbn. rewrite Htr. cbn.
  split; [rewrite <- !app_assoc; reflexivity | auto].
Qed.

(** X8. [processNextWorkItem] on a queue with a key: it dequeues the oldest
    key, runs [syncHandler] on it and, whatever the pass does, calls [Done]
    on the key exactly once; it calls [Forget] before [Done] when the pass
    returned nil, [AddRateLimited] after [Done] when it returned an error,
    and neither when it panicked, in which case the panic goes on. The pods
    are as the pass left them and the store is untouched. *)
Theorem processNextWorkItem_bookkeeping :
  forall clc key rest w out w',
    queue w = key :: rest ->
    processNextWorkItem clc w = (out, w') ->
    exists o1 w1 calls,
      syncHandler clc key (withQueue w rest EvQueueGet) = (o1, w1)
      /\ Patched (withQueue w rest EvQueueGet) calls w1
      /\ exists events,
           trace w' = trace w ++ EvQueueGet :: events
           /\ doneKeys events = [key]
           /\ pods w' = pods w1
           /\ patchLog w' = patchLog w ++ calls
           /\ store w' = store w
           /\ queue w' = rest
           /\ shuttingDown w' = shuttingDown w
           /\ match o1 with
              | Done None =>
                  out = Done (Some true)
                  /\ events = [EvQueueForget key; EvQueueDone key]
              | Done (Some _) =>
                  out = Done (Some true)
                  /\ events = [EvQueueDone key; EvQueueAddRateLimited key]
              | Panic m => out = Panic m /\ events = [EvQueueDone key]
              end.
Proof.
  intros clc key rest w out w' Hq Hrun.
  rewrite (processNextWorkItem_unfold _ _ _ _ Hq) in Hrun.
  destruct (syncHandler clc key (withQueue w rest EvQueueGet)) as [o1 w1] eqn:Hsync.
  destruct (syncHandler_Patched _ _ _ _ _ Hsync) as (calls & HP).
  exists o1, w1, calls. split; [reflexivity|]. split; [exact HP|].
  destruct HP as (Hlog & _ & Hs & Hq1 & Hd & Htr). cbn in Hlog, Hs, Hq1, Hd, Htr.
  destruct o1 as [[e|]|m]; injection Hrun as <- <-; cbn; rewrite Htr.
  - exists [EvQueueDone key; EvQueueAddRateLimited key].
    rewrite <- !app_assoc. cbn. auto 10.
  - exists [EvQueueForget key; EvQueueDone key].
    rewrite <- !app_assoc. cbn. auto 10.
  - exists [EvQueueDone key].
    rewrite <- !app_assoc. cbn. auto 10.
Qed.




(** ** The snapshot store *)

Lemma EnqueueClusterStatus_cases clc obj w out w' :
  EnqueueClusterStatus clc obj w = (out, w') ->
  (w' = w /\ exists e, out = Done (Some e))
  \/ (exists status,
        obj = ObjClusterStatus status
        /\ out = Done None
        /\ store w' = <[innodb.ClusterName status := obj]> (store w)
        /\ queue w' = (if bool_decide (innodb.ClusterName status ∈ queue w)
                       then queue w else queue w ++ [innodb.ClusterName status])
        /\ trace w' = trace w ++ [EvStoreAdd (innodb.ClusterName status);
                                   EvQueueAdd (innodb.ClusterName status)]
        /\ pods w' = pods w /\ patchLog w' = patchLog w
        /\ shuttingDown w' = shuttingDown w).
Proof.
  unfold EnqueueClusterStatus. destruct obj as [status|t]; cbn [keyFunc].
  - unfold bind, storeAdd. cbn [keyFunc].
    destruct (addFault (storeFaults clc) (ObjClusterStatus status)) as [e|].
    + intros H. injection H as <- <-. left. eauto.
    + intros H. injection H as <- <-. right. exists status. cbn.
      rewrite <- app_assoc. auto 10.
  - intros H. injection H as <- <-. left. eauto.
Qed.

Lemma EnqueueClusterStatus_StoreWellTyped clc obj w out w' :
  StoreWellTyped w -> EnqueueClusterStatus clc obj w = (out, w') -> StoreWellTyped w'.
Proof.
  intros Hst Hrun.
  apply EnqueueClusterStatus_cases in Hrun
    as [[-> _]|(status & -> & _ & Hs & _)]; [exact Hst|].
  intros key obj Hl. rewrite Hs in Hl.
  destruct (decide (innodb.ClusterName status = key)) as [<-|Hne].
  - rewrite lookup_insert_eq in Hl. injection Hl as <-. eauto.
  - rewrite lookup_insert_ne in Hl by exact Hne. exact (Hst _ _ Hl).
Qed.

Lemma processNextWorkItem_store clc w out w' :
  processNextWorkItem clc w = (out, w') -> store w' = store w.
Proof.
  intros Hrun. destruct (queue w) as [|key rest] eqn:Hq.
  - rewrite (processNextWorkItem_empty _ _ Hq) in Hrun. injection Hrun as _ <-. reflexivity.
  - rewrite (processNextWorkItem_unfold _ _ _ _ Hq) in Hrun.
    destruct (syncHandler clc key (withQueue w rest EvQueueGet)) as [o1 w1] eqn:Hsync.
    destruct (syncHandler_Patched _ _ _ _ _ Hsync) as (calls & _ & _ & Hs & _).
    destruct o1 as [[e|]|m]; injection Hrun as _ <-; exact Hs.
Qed.

(** X10. The store of a new controller holds cluster statuses only, each
    under its cluster name, and [EnqueueClusterStatus] and
    [processNextWorkItem] keep it so, whatever they are given and however
    they end; so the type assertion of [syncHandler] on a stored object
    never fails in a controller that is fed through
    [EnqueueClusterStatus]. *)
Theorem store_holds_cluster_statuses_only :
  (forall ps, StoreWellTyped (newWorld ps))
  /\ (forall clc w,
        StoreWellTyped w ->
        (forall obj out w',
           EnqueueClusterStatus clc obj w = (out, w') -> StoreWellTyped w')
        /\ (forall out w',
              processNextWorkItem clc w = (out, w') -> StoreWellTyped w')
        /\ (forall key out w',
              syncHandler clc key w = (out, w') ->
              StoreWellTyped w' /\ out <> Panic "interface conversion")).
Proof.
  split.
  - intros ps key obj H. cbn in H. rewrite lookup_empty in H. discriminate.
  - intros clc w Hst. split; [|split].
    + intros obj out w'. apply EnqueueClusterStatus_StoreWellTyped. exact Hst.
    + intros out w' Hrun key obj. rewrite (processNextWorkItem_store _ _ _ _ Hrun).
      apply Hst.
    + intros key out w' Hrun. split.
      * destruct (syncHandler_Patched _ _ _ _ _ Hrun) as (calls & _ & _ & Hs & _).
        intros k obj. rewrite Hs. apply Hst.
      * intros ->. unfold syncHandler, bind, GetByKey in Hrun.
        destruct (getByKeyFault (storeFaults clc) key) as [e|]; [discriminate|].
        destruct (store w !! key) as [[status|t]|] eqn:Hs.
        -- apply syncStatus_panic in Hrun as [Hm _]. discriminate.
        -- exact (StoreWellTyped_no_other _ _ _ Hst Hs).
        -- discriminate.
Qed.

(** X11. The store keeps the latest snapshot of a cluster and nothing of the
    earlier ones: after two successful [EnqueueClusterStatus] of statuses
    with the same cluster name, the store holds the second under that name
    and the snapshots of other clusters are as before, the key waits in the
    queue once more at most than before the first, and [syncHandler] on the
    key runs its pass over the second status. *)
Theorem EnqueueClusterStatus_latest_snapshot_wins :
  forall clc s1 s2 w w1 w2,
    innodb.ClusterName s1 = innodb.ClusterName s2 ->
    EnqueueClusterStatus clc (ObjClusterStatus s1) w = (Done None, w1) ->
    EnqueueClusterStatus clc (ObjClusterStatus s2) w1 = (Done None, w2) ->
    let key := innodb.ClusterName s2 in
    store w2 !! key = Some (ObjClusterStatus s2)
    /\ (forall k, k <> key -> store w2 !! k = store w !! k)
    /\ In key (queue w2)
    /\ queue w2 = queue w1
    /\ (getByKeyFault (storeFaults clc) key = None ->
        syncHandler clc key w2 = syncStatus clc s2 w2).
Proof.
  intros clc s1 s2 w w1 w2 Hname H1 H2 key.
  apply EnqueueClusterStatus_cases in H1
    as [[_ (e & He)]|(s1' & Heq1 & _ & Hs1 & Hq1 & _)]; [discriminate|].
  apply EnqueueClusterStatus_cases in H2
    as [[_ (e & He)]|(s2' & Heq2 & _ & Hs2 & Hq2 & _)]; [discriminate|].
  injection Heq1 as <-. injection Heq2 as <-. fold key in Hs2, Hq2. rewrite Hname in Hs1, Hq1.
  fold key in Hs1, Hq1.
  assert (Hin1 : In key (queue w1)).
  { rewrite Hq1. destruct (bool_decide (key ∈ queue w)) eqn:Hin.
    - apply bool_decide_eq_true in Hin. apply list_elem_of_In. exact Hin.
    - apply in_or_app. right. left. reflexivity. }
  assert (Hq : queue w2 = queue w1).
  { rewrite Hq2. rewrite bool_decide_eq_true_2; [reflexivity|].
    apply list_elem_of_In. exact Hin1. }
  assert (Hl : store w2 !! key = Some (ObjClusterStatus s2)).
  { rewrite Hs2. apply lookup_insert_eq. }
  split; [exact Hl|]. split.
  { intros k Hk. rewrite Hs2, Hs1, !lookup_insert_ne by congruence. reflexivity. }
  split; [rewrite Hq; exact Hin1|]. split; [exact Hq|].
  intros Hf. unfold syncHandler, bind, GetByKey. rewrite Hf, Hl. reflexivity.
Qed.

(** X12. From ingestion to the pass: on a new controller whose queue is
    empty, [EnqueueClusterStatus] of a cluster status succeeds, and the next
    [processNextWorkItem] runs the pass over that very status, leaves the
    pods as that pass leaves them and the queue empty, and calls [Forget] if
    the pass returned nil and [AddRateLimited] if it returned an error. *)
Theorem ingested_status_is_the_one_reconciled :
  forall local lister control status w,
    let clc := NewClusterLabelerController local lister control in
    let key := innodb.ClusterName status in
    queue w = [] ->
    exists w1,
      EnqueueClusterStatus clc (ObjClusterStatus status) w = (Done None, w1)
      /\ forall out w2,
           processNextWorkItem clc w1 = (out, w2) ->
           exists o1 w',
             syncStatus clc status (withQueue w1 [] EvQueueGet) = (o1, w')
             /\ pods w2 = pods w'
             /\ patchLog w2 = patchLog w'
             /\ queue w2 = []
             /\ match o1 with
                | Done None =>
                    out = Done (Some true)
                    /\ trace w2 = trace w ++ [EvStoreAdd key; EvQueueAdd key; EvQueueGet;
                                              EvQueueForget key; EvQueueDone key]
                | Done (Some _) =>
                    out = Done (Some true)
                    /\ trace w2 = trace w ++ [EvStoreAdd key; EvQueueAdd key; EvQueueGet;
                                              EvQueueDone key; EvQueueAddRateLimited key]
                | Panic m =>
                    out = Panic m
                    /\ trace w2 = trace w ++ [EvStoreAdd key; EvQueueAdd key; EvQueueGet;
                                              EvQueueDone key]
                end.
Proof.
  intros local lister control status w clc key Hq.
  destruct (EnqueueClusterStatus clc (ObjClusterStatus status) w) as [o w1] eqn:Henq.
  pose proof Henq as Hc.
  apply EnqueueClusterStatus_cases in Hc
    as [[_ (e & He)]|(s' & Heq & -> & Hs & Hq1 & Ht & _)].
  { exfalso. subst o. unfold EnqueueClusterStatus, bind, storeAdd in Henq.
    cbn in Henq. discriminate. }
  injection Heq as <-. fold key in Hs, Hq1, Ht.
  rewrite Hq in Hq1. cbn in Hq1.
  exists w1. split; [reflexivity|].
  intros out w2 Hrun.
  rewrite (processNextWorkItem_unfold _ _ _ _ Hq1) in Hrun.
  assert (Hsync : syncHandler clc key (withQueue w1 [] EvQueueGet)
                  = syncStatus clc status (withQueue w1 [] EvQueueGet)).
  { unfold syncHandler, bind, GetByKey. cbn. rewrite Hs, lookup_insert_eq. reflexivity. }
  rewrite Hsync in Hrun.
  destruct (syncStatus clc status (withQueue w1 [] EvQueueGet)) as [o1 w'] eqn:Hpass.
  exists o1, w'. split; [reflexivity|].
  destruct (syncStatus_run _ _ _ _ _ Hpass) as (calls & ending & HP & _).
  destruct HP as (_ & _ & _ & Hq' & _ & Htr). cbn in Hq', Htr. rewrite Ht in Htr.
  destruct o1 as [[e|]|m]; injection Hrun as <- <-; cbn; rewrite Htr, Hq';
    rewrite <- !app_assoc; cbn; auto 10.
Qed.

(** ** A call that changes nothing *)

Lemma withLabels_same p : corev1.withLabels p (corev1.Labels p) = p.
Proof. destruct p. reflexivity. Qed.

Lemma relabeled_same p v :
  v = "" \/ corev1.Labels p <> None ->
  (relabeled p v = p <-> roleOf p = roleFor v).
Proof.
  intros Hok. split.
  - intros Heq. rewrite <- Heq at 1. apply roleOf_relabeled. exact Hok.
  - unfold roleOf, roleFor, relabeled. intros Hr.
    transitivity (corev1.withLabels p (corev1.Labels p)); [|apply withLabels_same].
    f_equal.
    destruct (bool_decide (v = "")) eqn:Hv, (corev1.Labels p) as [ls|]; cbn in *.
    + f_equal. apply delete_id. exact Hr.
    + reflexivity.
    + f_equal. apply insert_id. exact Hr.
    + destruct Hok as [->|Hl]; [discriminate | congruence].
Qed.

(** X13. [updateClusterRoleLabel] calls [PatchPod] also when there is nothing
    to change: whenever it returns, it has made exactly one call, and the
    object it submitted equals the pod it was given exactly when the pod
    already bore the requested role (no role label for the empty value). *)
Theorem updateClusterRoleLabel_submits_same_pod_iff_role_is_borne :
  forall clc pod val w r w',
    updateClusterRoleLabel clc pod val w = (Done r, w') ->
    exists new,
      patchLog w' = patchLog w ++ [{| patchOld := pod; patchNew := new; patchResult := r |}]
      /\ (new = pod <-> roleOf pod = roleFor val).
Proof.
  intros clc pod val w r w' Hrun.
  destruct (updateClusterRoleLabel_step clc pod val w)
    as [(_ & _ & m & Hu) | (Hok & r1 & w1 & Hu & HP)]; rewrite Hu in Hrun;
    [discriminate|].
  injection Hrun as <- <-. exists (relabeled pod val).
  split; [apply HP | apply relabeled_same; exact Hok].
Qed.

(** ** Passes over pods that differ in their roles *)








(** ** The number of calls of a pass *)



(** ** The further scenarios, run *)

Ltac local_is_member_labels :=
  let p := fresh "p" in
  let Hin := fresh "Hin" in
  let Hk := fresh "Hk" in
  intros p Hin Hk; simpl in Hin;
  repeat (destruct Hin as [<-|Hin];
          [first [vm_compute; discriminate | vm_compute in Hk; discriminate Hk]|]);
  contradiction.

Lemma syncHandler_labels_online_members_secondary_witness :
  roleOf (nth 1 (pods Scenario.w1) Scenario.unlabeled) = Some "secondary".
Proof.
  apply (syncHandler_labels_online_members_secondary
           Scenario.clc "mysql" Scenario.status Scenario.w0 Scenario.w1).
  - well_keyed.
  - local_is_member.
  - vm_compute. reflexivity.
  - vm_compute. reflexivity.
  - vm_compute. auto.
  - vm_compute. reflexivity.
  - vm_compute. reflexivity.
  - vm_compute. reflexivity.
Defined.


Lemma syncHandler_every_call_changes_the_role_witness :
  exists calls,
    patchLog Scenario.w1 = patchLog Scenario.w0 ++ calls
    /\ forall c, In c calls ->
         In (patchOld c) (pods Scenario.w0)
         /\ roleOf (patchNew c) <> roleOf (patchOld c).
Proof.
  apply (syncHandler_every_call_changes_the_role
           Scenario.clc "mysql" Scenario.w0 (Done None)).
  - well_keyed.
  - local_is_member.
  - vm_compute. reflexivity.
Defined.



Lemma syncHandler_panics_only_on_unlabeled_local_pod_witness :
  (exists err, fst (syncHandler Scenario.clc "mysql" Scenario.w0) = Done err)
  /\ exists p, In p (pods More.wLocalUnlabeled)
               /\ podKey p = localKey Scenario.clc /\ corev1.Labels p = None.
Proof.
  split.
  - refine (proj1 (syncHandler_panics_only_on_unlabeled_local_pod
                     Scenario.clc "mysql" Scenario.w0 _ _ _ _ (surjective_pairing _)) _).
    + well_keyed.
    + intros key obj H. exists Scenario.status.
      destruct (decide (key = "mysql")) as [->|Hne].
      * vm_compute in H. injection H as <-. split; reflexivity.
      * exfalso. unfold Scenario.w0, Scenario.world in H. cbn in H.
        rewrite lookup_insert_ne in H by congruence.
        rewrite lookup_empty in H. discriminate.
    + local_is_member_labels.
  - refine (proj2 (proj2 (syncHandler_panics_only_on_unlabeled_local_pod
                     Scenario.clc "mysql" More.wLocalUnlabeled _ _ _ _
                     (surjective_pairing _)) "assignment to entry in nil map" _)).
    + well_keyed.
    + intros key obj H. exists Scenario.status.
      destruct (decide (key = "mysql")) as [->|Hne].
      * vm_compute in H. injection H as <-. split; reflexivity.
      * exfalso. unfold More.wLocalUnlabeled in H. cbn in H.
        rewrite lookup_singleton_ne in H by congruence. discriminate.
    + vm_compute. reflexivity.
Defined.

Lemma missing_local_pod_fails_the_pass_witness :
  exists e w1 w2,
    syncHandler Scenario.clc "mysql" (withQueue More.wNoLocal [] EvQueueGet)
    = (Done (Some e), w1)
    /\ processNextWorkItem Scenario.clc More.wNoLocal = (Done (Some true), w2)
    /\ trace w2 = trace More.wNoLocal
                  ++ [EvQueueGet; EvQueueDone "mysql"; EvQueueAddRateLimited "mysql"]
    /\ pods w2 = pods w1
    /\ patchLog w2 = patchLog w1.
Proof.
  apply (missing_local_pod_fails_the_pass
           Scenario.clc "mysql" Scenario.status [] More.wNoLocal).
  - well_keyed.
  - vm_compute. reflexivity.
  - intros p Hin Hk. simpl in Hin.
    repeat (destruct Hin as [<-|Hin]; [vm_compute in Hk; discriminate Hk|]).
    contradiction.
  - reflexivity.
Defined.

Lemma processNextWorkItem_bookkeeping_witness :
  exists o1 w1 calls,
    syncHandler Scenario.clc "mysql" (withQueue Scenario.w0 [] EvQueueGet) = (o1, w1)
    /\ Patched (withQueue Scenario.w0 [] EvQueueGet) calls w1
    /\ exists events,
         trace (snd (processNextWorkItem Scenario.clc Scenario.w0))
         = trace Scenario.w0 ++ EvQueueGet :: events
         /\ doneKeys events = ["mysql"]
         /\ pods (snd (processNextWorkItem Scenario.clc Scenario.w0)) = pods w1
         /\ patchLog (snd (processNextWorkItem Scenario.clc Scenario.w0))
            = patchLog Scenario.w0 ++ calls
         /\ store (snd (processNextWorkItem Scenario.clc Scenario.w0)) = store Scenario.w0
         /\ queue (snd (processNextWorkItem Scenario.clc Scenario.w0)) = []
         /\ shuttingDown (snd (processNextWorkItem Scenario.clc Scenario.w0))
            = shuttingDown Scenario.w0
         /\ match o1 with
            | Done None =>
                fst (processNextWorkItem Scenario.clc Scenario.w0) = Done (Some true)
                /\ events = [EvQueueForget "mysql"; EvQueueDone "mysql"]
            | Done (Some _) =>
                fst (processNextWorkItem Scenario.clc Scenario.w0) = Done (Some true)
                /\ events = [EvQueueDone "mysql"; EvQueueAddRateLimited "mysql"]
            | Panic m =>
                fst (processNextWorkItem Scenario.clc Scenario.w0) = Panic m
                /\ events = [EvQueueDone "mysql"]
            end.
Proof.
  apply (processNextWorkItem_bookkeeping Scenario.clc "mysql" [] Scenario.w0).
  - reflexivity.
  - apply surjective_pairing.
Defined.


Lemma store_holds_cluster_statuses_only_witness :
  StoreWellTyped
    (snd (EnqueueClusterStatus More.fresh (ObjClusterStatus Scenario.status) More.wFresh))
  /\ StoreWellTyped
       (snd (EnqueueClusterStatus More.fresh (ObjOther "string") More.wFresh)).
Proof.
  destruct store_holds_cluster_statuses_only as [Hnew Hkeep].
  destruct (Hkeep More.fresh More.wFresh (Hnew Scenario.somePods)) as (Henq & _ & _).
  split.
  - apply (Henq (ObjClusterStatus Scenario.status) _ _ (surjective_pairing _)).
  - apply (Henq (ObjOther "string") _ _ (surjective_pairing _)).
Defined.

Lemma EnqueueClusterStatus_latest_snapshot_wins_witness :
  let w1 := snd (EnqueueClusterStatus More.fresh
                   (ObjClusterStatus Scenario.statusWithoutLocal) More.wFresh) in
  let w2 := snd (EnqueueClusterStatus More.fresh (ObjClusterStatus Scenario.status) w1) in
  store w2 !! "mysql" = Some (ObjClusterStatus Scenario.status)
  /\ (forall k, k <> "mysql" -> store w2 !! k = store More.wFresh !! k)
  /\ In "mysql" (queue w2)
  /\ queue w2 = queue w1
  /\ (getByKeyFault (storeFaults More.fresh) "mysql" = None ->
      syncHandler More.fresh "mysql" w2 = syncStatus More.fresh Scenario.status w2).
Proof.
  intros w1 w2.
  apply (EnqueueClusterStatus_latest_snapshot_wins
           More.fresh Scenario.statusWithoutLocal Scenario.status More.wFresh w1 w2).
  - reflexivity.
  - vm_compute. reflexivity.
  - vm_compute. reflexivity.
Defined.

Lemma ingested_status_is_the_one_reconciled_witness :
  exists w1,
    EnqueueClusterStatus More.fresh (ObjClusterStatus Scenario.status) More.wFresh
    = (Done None, w1)
    /\ exists o1 w',
         syncStatus More.fresh Scenario.status (withQueue w1 [] EvQueueGet) = (o1, w')
         /\ pods (snd (processNextWorkItem More.fresh w1)) = pods w'
         /\ queue (snd (processNextWorkItem More.fresh w1)) = [].
Proof.
  destruct (ingested_status_is_the_one_reconciled
              Scenario.local Scenario.noListerFault {| patchFault := fun _ _ _ => None |}
              Scenario.status More.wFresh eq_refl) as (w1 & Henq & Hnext).
  exists w1. split; [exact Henq|].
  destruct (Hnext _ _ (surjective_pairing _)) as (o1 & w' & Hpass & Hpods & _ & Hq & _).
  exists o1, w'. auto.
Defined.

Lemma updateClusterRoleLabel_submits_same_pod_iff_role_is_borne_witness :
  exists new,
    patchLog (snd (updateClusterRoleLabel Scenario.clc
                     (nth 1 Scenario.somePods Scenario.unlabeled)
                     MySQLClusterRolePrimary Scenario.w0))
    = patchLog Scenario.w0
      ++ [{| patchOld := nth 1 Scenario.somePods Scenario.unlabeled;
             patchNew := new; patchResult := None |}]
    /\ (new = nth 1 Scenario.somePods Scenario.unlabeled
        <-> roleOf (nth 1 Scenario.somePods Scenario.unlabeled)
            = roleFor MySQLClusterRolePrimary).
Proof.
  apply (updateClusterRoleLabel_submits_same_pod_iff_role_is_borne Scenario.clc).
  vm_compute. reflexivity.
Defined.


